(** * tone_processor.py: segmentation and count fitting

    A shallow embedding of the interval pipeline of [ToneClipProcessor]
    (src/tone_processor.py): the silence-log parser, the silence pairer,
    the speech inverter, the padding applier, the even splitter, the
    segment-count fitter with its merge pass, and the clean-up discipline
    of the export combiner.

    Conventions.
    - Python [float] timestamps are embedded as exact rationals [Q]; every
      comparison of the source is written with [Qle_bool] in the direction
      the source has it.  Rounding error of binary floating point is not
      modelled.
    - Python exceptions are the [Err] branch of [result], tagged with the
      exception class and, for [RuntimeError], the message that is raised.
    - Python [int] is [Z]; [len] is [Z.of_nat (length _)]. *)

From stdpp Require Import gmap strings.
From Stdlib Require Import ZArith QArith Qround Qminmax Lia Lqa Bool String Ascii List.
Import ListNotations.

Local Open Scope Z_scope.
Local Open Scope Q_scope.

(** ** Exceptions *)

Inductive runtime_msg : Type :=
| NoSegmentsAvailable                       (* "No segments available to fit." *)
| DetectedOnly (found target : Z)           (* "Detected only {found} segments but need {target}. ..." *)
| UnableToReduce (target found : Z)         (* "Unable to reduce segments to exactly {target}; detected {found} after merging." *)
| NoExportsAvailable                        (* "No exports available to combine." *)
| CommandFailed.                            (* "Command failed (...)" raised by _run *)

Inductive exn : Type :=
| RuntimeError (msg : runtime_msg)
| ValueError
| IndexError
| ZeroDivisionError
| OSError.

Inductive result (A : Type) : Type :=
| Ok (a : A)
| Err (e : exn).
Arguments Ok {A} a.
Arguments Err {A} e.

Definition bind {A B} (r : result A) (k : A -> result B) : result B :=
  match r with
  | Ok a => k a
  | Err e => Err e
  end.

Notation "'do' x <- r ; k" := (bind r (fun x => k))
  (at level 10, x name, r at level 100, k at level 200).

(** ** Floats as rationals; the builtins [max], [min] *)

Definition interval : Type := (Q * Q)%type.

(** [a > b] and [a >= b] on floats, through [Qle_bool]. *)
Definition Qgtb (a b : Q) : bool := negb (Qle_bool a b).
Definition Qgeb (a b : Q) : bool := Qle_bool b a.

(** [max(a, b)] returns its first argument unless the second is strictly
    greater; [min(a, b)] returns its first argument unless the second is
    strictly smaller. *)
Definition py_max (a b : Q) : Q := if Qgtb b a then b else a.
Definition py_min (a b : Q) : Q := if Qgtb a b then b else a.

(** ** Module constants *)

(** [MIN_SEGMENT_DURATION = 0.05] *)
Definition MIN_SEGMENT_DURATION : Q := 5 # 100.

(** [range(start, stop, step)] for a positive step, with fuel. *)
Fixpoint range_from (fuel : nat) (start stop step : Z) : list Z :=
  match fuel with
  | O => []
  | S fuel' =>
      if (start <? stop)%Z then start :: range_from fuel' (start + step)%Z stop step
      else []
  end.

Definition py_range3 (start stop step : Z) : list Z :=
  range_from (Z.to_nat (stop - start)) start stop step.

(** [MERGE_GAPS_SECONDS = [i / 1000 for i in range(60, 301, 10)]] *)
Definition MERGE_GAPS_SECONDS : list Q :=
  List.map (fun i => inject_Z i / 1000) (py_range3 60 301 10).

(** ** _merge_adjacent

    [merged] is never empty inside the loop, so it is carried as the pair
    of [merged[:-1]] and [merged[-1]]: assigning [merged[-1]] replaces the
    second component, [merged.append] pushes it onto the first. *)

Definition merge_step (gap_size : Q) (st : list interval * interval)
    (seg : interval) : list interval * interval :=
  let '(front, (last_start, last_end)) := st in
  let '(start, end_) := seg in
  if Qle_bool (start - last_end) gap_size
  then (front, (last_start, py_max last_end end_))
  else (front ++ [(last_start, last_end)], (start, end_)).

Definition merge_adjacent (segments : list interval) (gap_size : Q)
    : result (list interval) :=
  match segments with
  | [] => Err IndexError                        (* segments[0] *)
  | first :: rest =>
      let '(front, last) := fold_left (merge_step gap_size) rest ([], first) in
      Ok (front ++ [last])
  end.

(** ** _fit_segments_to_target *)

Definition len {A} (l : list A) : Z := Z.of_nat (length l).

(** [sorted(xs, key=key)]: the stable sort by [key], as insertion from the
    right; an element goes in front of the first element whose key is not
    smaller than its own. *)
Section StableSort.
Context {A : Type} (key : A -> Q).

Fixpoint insert_by (x : A) (l : list A) : list A :=
  match l with
  | [] => [x]
  | y :: l' => if Qle_bool (key x) (key y) then x :: l else y :: insert_by x l'
  end.

Definition py_sorted (l : list A) : list A := fold_right insert_by [] l.
End StableSort.

(** [l[:n]], with Python's reading of a negative bound. *)
Definition slice_to {A} (l : list A) (n : Z) : list A :=
  if (n <? 0)%Z then firstn (Z.to_nat (len l + n)) l else firstn (Z.to_nat n) l.

(** The [for gap in MERGE_GAPS_SECONDS] loop: every pass merges the result
    of the pass before it; [break] at the first count that is [<= target]. *)
Fixpoint merge_loop (target : Z) (gaps : list Q) (best : list interval)
    : result (list interval) :=
  match gaps with
  | [] => Ok best
  | gap :: gaps' =>
      do merged <- merge_adjacent best gap;
      if (len merged <=? target)%Z then Ok merged
      else merge_loop target gaps' merged
  end.

(** [target] is [self.config.clips.count]. *)
Definition fit_segments_to_target (target : Z) (segments : list interval)
    : result (list interval) :=
  match segments with
  | [] => Err (RuntimeError NoSegmentsAvailable)
  | _ :: _ =>
      let ordered := py_sorted fst segments in
      if (len ordered =? target)%Z then Ok ordered
      else if (len ordered <? target)%Z
      then Err (RuntimeError (DetectedOnly (len ordered) target))
      else
        do best <- merge_loop target MERGE_GAPS_SECONDS ordered;
        let best := if (len best >? target)%Z then slice_to best target else best in
        if (len best <? target)%Z
        then Err (RuntimeError (UnableToReduce target (len best)))
        else Ok best
  end.

(** ** Ordered interval sequences *)

(** Neighbours are ordered by start and do not overlap:
    [interval[i].start <= interval[i+1].start] and
    [interval[i].end <= interval[i+1].start]. *)
Definition before (a b : interval) : Prop := fst a <= fst b /\ snd a <= fst b.

Fixpoint ordered_seq (l : list interval) : Prop :=
  match l with
  | a :: (b :: _) as tl => before a b /\ ordered_seq tl
  | _ => True
  end.

Fixpoint start_sorted (l : list interval) : Prop :=
  match l with
  | a :: (b :: _) as tl => fst a <= fst b /\ start_sorted tl
  | _ => True
  end.

(** A contiguous run of input intervals, never empty: its first interval and
    the ones after it.  Its union starts where the first one starts and ends
    at the largest end of the run. *)
Definition seg_run : Type := (interval * list interval)%type.

Definition run_items (r : seg_run) : list interval := fst r :: snd r.

Definition flat (runs : list seg_run) : list interval := concat (List.map run_items runs).

Definition hull_step (acc seg : interval) : interval :=
  (fst acc, py_max (snd acc) (snd seg)).

Definition hull (r : seg_run) : interval := fold_left hull_step (snd r) (fst r).

Definition join (r1 r2 : seg_run) : seg_run := (fst r1, snd r1 ++ run_items r2).

(** Relation between the states of two merge passes over the same input:
    the pass at the larger threshold is never ahead in count, and its
    running end is never behind. *)
Definition lags (st1 st2 : list interval * interval) : Prop :=
  (length (fst st2) <= length (fst st1))%nat /\
  snd (snd st1) <= snd (snd st2).

(** ** Scenario B of the specification *)

(** A [TimedInterval] has [start < end]. *)
Definition timed (i : interval) : Prop := fst i < snd i.

(** [gaps_are segs gaps]: the silent distance between the i-th segment and
    the next one is the i-th entry of [gaps]; there is one more segment
    than there are gaps. *)
Fixpoint gaps_are (segs : list interval) (gaps : list Q) {struct gaps} : Prop :=
  match gaps, segs with
  | [], [_] => True
  | g :: gaps', a :: ((b :: _) as tl) => fst b - snd a == g /\ gaps_are tl gaps'
  | _, _ => False
  end.

Fixpoint alternate (a b : Q) (n : nat) : list Q :=
  match n with
  | O => []
  | S n' => a :: alternate b a n'
  end.

(** Eleven gaps, alternating 40 ms and 500 ms. *)
Definition scenario_B_gaps : list Q := alternate (40 # 1000) (500 # 1000) 11.

(** The segments joined two by two. *)
Fixpoint pair_up (segs : list interval) : list interval :=
  match segs with
  | a :: b :: tl => (fst a, snd b) :: pair_up tl
  | _ => []
  end.

(** ** _pair_silences *)

(** The tags ["start"] and ["end"] of the event tuples. *)
Inductive kind : Type := KStart | KEnd.

Definition event : Type := (kind * Q)%type.

(** [events = [("start", v) for v in starts] + [("end", v) for v in ends]]
    followed by [events.sort(key=lambda item: item[1])]. *)
Definition sorted_events (starts ends : list Q) : list event :=
  py_sorted snd
    (List.map (fun value => (KStart, value)) starts ++
     List.map (fun value => (KEnd, value)) ends).

(** One turn of the sweep; the state is [(silences, current_start)], with
    [None] for Python's [None]. *)
Definition pair_step (st : list interval * option Q) (ev : event)
    : list interval * option Q :=
  let '(silences, current_start) := st in
  let '(kind, timestamp) := ev in
  match kind with
  | KStart =>
      match current_start with
      | None => (silences, Some timestamp)
      | Some _ => (silences, current_start)
      end
  | KEnd =>
      let current_start :=
        match current_start with
        | None => 0
        | Some c => c
        end in
      (silences ++ [(current_start, timestamp)], None)
  end.

Definition pair_silences (starts ends : list Q) (duration : Q) : list interval :=
  let '(silences, current_start) :=
    fold_left pair_step (sorted_events starts ends) ([], None) in
  match current_start with
  | Some c => silences ++ [(c, duration)]
  | None => silences
  end.

(** ** _silences_to_speech *)

(** The literal [1e-3]. *)
Definition EPSILON : Q := 1 # 1000.

Definition speech_step (st : list interval * Q) (silence : interval)
    : list interval * Q :=
  let '(speech_segments, previous_end) := st in
  let '(start, end_) := silence in
  (if Qgtb (start - previous_end) EPSILON
   then speech_segments ++ [(previous_end, start)]
   else speech_segments,
   end_).

Definition silences_to_speech (silences : list interval) (duration : Q)
    : list interval :=
  let '(speech_segments, previous_end) := fold_left speech_step silences ([], 0) in
  if Qgtb (duration - previous_end) EPSILON
  then speech_segments ++ [(previous_end, duration)]
  else speech_segments.

(** ** _apply_padding ([pad] is [self.config.detect.pad]) *)

Definition padding_step (pad duration : Q) (padded : list interval)
    (seg : interval) : list interval :=
  let '(start, end_) := seg in
  let window_start := py_max 0 (start - pad) in
  let window_end := py_min duration (end_ + pad) in
  if Qgeb (window_end - window_start) MIN_SEGMENT_DURATION
  then padded ++ [(window_start, window_end)]
  else padded.

Definition apply_padding (pad : Q) (segments : list interval) (duration : Q)
    : list interval :=
  fold_left (padding_step pad duration) segments [].

(** The padding applier in the words of the specification: widen by [pad]
    on both ends, clamp to [0, Duration], keep the windows whose length
    reaches the minimum. *)
Definition padded_window (pad duration : Q) (seg : interval) : interval :=
  (Qmax 0 (fst seg - pad), Qmin duration (snd seg + pad)).

Definition long_enough (w : interval) : bool :=
  Qle_bool MIN_SEGMENT_DURATION (snd w - fst w).

Definition spec_padding (pad : Q) (segments : list interval) (duration : Q)
    : list interval :=
  List.filter long_enough (List.map (padded_window pad duration) segments).

(** ** Conditions on the event sequence of the pairer *)

(** No END event directly follows another END event. *)
Fixpoint no_double_end (evs : list event) : Prop :=
  match evs with
  | (KEnd, _) :: (((KEnd, _) :: _) as tl) => False
  | _ :: tl => no_double_end tl
  | [] => True
  end.

Fixpoint sorted_by {A} (key : A -> Q) (l : list A) : Prop :=
  match l with
  | a :: ((b :: _) as tl) => key a <= key b /\ sorted_by key tl
  | _ => True
  end.

Definition all_le (x : Q) (l : list interval) : Prop :=
  Forall (fun i => fst i <= x /\ snd i <= x) l.

(** Invariant of the sweep: [t] is the time reached, [prev_end] tells
    whether the event just handled was an END. *)
Definition sweep_inv (t : Q) (prev_end : bool) (st : list interval * option Q) : Prop :=
  let '(silences, current_start) := st in
  ordered_seq silences /\ all_le t silences /\ 0 <= t /\
  match current_start with
  | Some c => all_le c silences /\ c <= t
  | None => silences = [] \/ prev_end = true
  end.

(** What the sweep needs from the events still to come. *)
Definition sweep_todo (t : Q) (prev_end : bool) (evs : list event) : Prop :=
  sorted_by snd evs /\ no_double_end evs /\
  match evs with
  | (k, ts) :: _ => t <= ts /\ (prev_end = true -> k = KStart)
  | [] => True
  end.

(** ** _split_evenly ([count] is [self.config.clips.count]) *)

(** Nearest integer, ties to the even one. *)
Definition round_half_even (q : Q) : Z :=
  let f := Qfloor q in
  let r := q - inject_Z f in
  if Qgtb (1 # 2) r then f
  else if Qgtb r (1 # 2) then (f + 1)%Z
  else if Z.even f then f else (f + 1)%Z.

(** [round(x, ndigits)]: the closest multiple of [10 ** -ndigits], ties to
    the even multiple. *)
Definition py_round (x : Q) (ndigits : nat) : Q :=
  inject_Z (round_half_even (x * inject_Z (10 ^ Z.of_nat ndigits)))
  / inject_Z (10 ^ Z.of_nat ndigits).

(** [range(n)] *)
Definition py_range (n : Z) : list Z := List.map Z.of_nat (seq 0 (Z.to_nat n)).

Definition even_segment (count : Z) (duration segment_length : Q) (idx : Z) : interval :=
  let start := inject_Z idx * segment_length in
  let end_ :=
    if (idx =? count - 1)%Z then duration
    else inject_Z (idx + 1) * segment_length in
  (py_round start 5, py_round end_ 5).

Definition split_evenly (count : Z) (duration : Q) : result (list interval) :=
  if (count =? 0)%Z then Err ZeroDivisionError      (* duration / count *)
  else
    let segment_length := duration / inject_Z count in
    Ok (fold_left
          (fun segments idx =>
             segments ++ [even_segment count duration segment_length idx])
          (py_range count) []).

(** The choice made in [run]: the detector's segments when detection is
    enabled, the even split otherwise.  [detected] stands for the outcome of
    [_detect_segments], which depends on the external tool. *)
Definition candidate_segments (enabled : bool)
    (detected : result (list interval)) (count : Z) (duration : Q)
    : result (list interval) :=
  if enabled then detected else split_evenly count duration.

(** Each segment ends exactly where the next one starts. *)
Fixpoint contiguous (l : list interval) : Prop :=
  match l with
  | a :: ((b :: _) as tl) => snd a = fst b /\ contiguous tl
  | _ => True
  end.

(** ** _parse_silence_log

    Text is a [string] whose characters are the code points U+0000 to
    U+00FF. *)

Local Open Scope string_scope.

Definition code (c : ascii) : nat := nat_of_ascii c.

Definition in_codes (c : ascii) (codes : list nat) : bool :=
  existsb (Nat.eqb (code c)) codes.

(** Line boundaries of [str.splitlines] in this range: LF, VT, FF, CR, FS,
    GS, RS, NEL. *)
Definition is_line_break (c : ascii) : bool :=
  in_codes c [10; 11; 12; 13; 28; 29; 30; 133]%nat.

(** [\s] of a [str] pattern in this range. *)
Definition is_space (c : ascii) : bool :=
  in_codes c [9; 10; 11; 12; 13; 28; 29; 30; 31; 32; 133; 160]%nat.

Definition digit_of (c : ascii) : option Z :=
  let n := code c in
  if ((48 <=? n) && (n <=? 57))%nat then Some (Z.of_nat (n - 48)) else None.

(** The class [[0-9.]]. *)
Definition is_num_char (c : ascii) : bool :=
  match digit_of c with
  | Some _ => true
  | None => Ascii.eqb c "."
  end.

(** [log.splitlines()]; [cur] is the line being read.  CR LF is one
    boundary; there is no empty last line. *)
Fixpoint splitlines_from (cur : string) (s : string) : list string :=
  match s with
  | EmptyString =>
      match cur with
      | EmptyString => []
      | _ => [cur]
      end
  | String c rest =>
      if is_line_break c then
        match rest with
        | String c' rest' =>
            if (Ascii.eqb c "013" && Ascii.eqb c' "010")%bool
            then cur :: splitlines_from "" rest'
            else cur :: splitlines_from "" rest
        | EmptyString => cur :: splitlines_from "" rest
        end
      else splitlines_from (cur ++ String c "") rest
  end.

Definition splitlines (s : string) : list string := splitlines_from "" s.

Fixpoint strip_prefix (lit s : string) : option string :=
  match lit, s with
  | EmptyString, _ => Some s
  | String a lit', String b s' =>
      if Ascii.eqb a b then strip_prefix lit' s' else None
  | String _ _, EmptyString => None
  end.

Fixpoint skip_spaces (s : string) : string :=
  match s with
  | String c rest => if is_space c then skip_spaces rest else s
  | EmptyString => s
  end.

Fixpoint take_num (s : string) : string :=
  match s with
  | String c rest => if is_num_char c then String c (take_num rest) else ""
  | EmptyString => ""
  end.

(** A match of [lit\s*([0-9.]+)] at the head of [s]; the result is group 1.
    Both repetitions are greedy, and since no character is both a space and
    in [[0-9.]], giving back spaces can never turn a failure into a match. *)
Definition match_at (lit s : string) : option string :=
  match strip_prefix lit s with
  | None => None
  | Some rest =>
      match take_num (skip_spaces rest) with
      | EmptyString => None
      | tok => Some tok
      end
  end.

(** [re.search]: the leftmost position with a match. *)
Fixpoint re_search (lit s : string) : option string :=
  match match_at lit s with
  | Some tok => Some tok
  | None =>
      match s with
      | EmptyString => None
      | String _ rest => re_search lit rest
      end
  end.

(** [SILENCE_START_RE.search(line)] and [SILENCE_END_RE.search(line)],
    giving [match.group(1)]. *)
Definition SILENCE_START_RE (line : string) : option string :=
  re_search "silence_start:" line.
Definition SILENCE_END_RE (line : string) : option string :=
  re_search "silence_end:" line.

Fixpoint read_digits (s : string) (acc : Z) (count : nat) : Z * nat * string :=
  match s with
  | String c rest =>
      match digit_of c with
      | Some d => read_digits rest (10 * acc + d)%Z (S count)
      | None => (acc, count, s)
      end
  | EmptyString => (acc, count, s)
  end.

(** [float(token)] for a token made of digits and dots, which is all the
    two patterns can capture: digits with at most one dot and at least one
    digit give the decimal value, anything else raises [ValueError]. *)
Definition py_float (token : string) : result Q :=
  let '(ip, ni, rest) := read_digits token 0%Z 0%nat in
  match rest with
  | EmptyString =>
      if (ni =? 0)%nat then Err ValueError else Ok (inject_Z ip)
  | String c rest' =>
      if Ascii.eqb c "." then
        let '(fp, nf, rest'') := read_digits rest' ip 0%nat in
        match rest'' with
        | EmptyString =>
            if (ni + nf =? 0)%nat then Err ValueError
            else Ok (inject_Z fp / inject_Z (10 ^ Z.of_nat nf))
        | String _ _ => Err ValueError
        end
      else Err ValueError
  end.

(** One line of the loop: [starts.append(float(...))] if the start pattern
    matches, then [ends.append(float(...))] if the end pattern matches. *)
Definition append_match (found : option string) (values : list Q) : result (list Q) :=
  match found with
  | Some token => do v <- py_float token; Ok (values ++ [v])%list
  | None => Ok values
  end.

Definition parse_line (st : list Q * list Q) (line : string) : result (list Q * list Q) :=
  let '(starts, ends) := st in
  do starts <- append_match (SILENCE_START_RE line) starts;
  do ends <- append_match (SILENCE_END_RE line) ends;
  Ok (starts, ends).

Fixpoint parse_lines (lines : list string) (st : list Q * list Q)
    : result (list Q * list Q) :=
  match lines with
  | [] => Ok st
  | line :: rest => do st' <- parse_line st line; parse_lines rest st'
  end.

Definition parse_silence_log (log : string) : result (list Q * list Q) :=
  parse_lines (splitlines log) ([], []).

(** A captured token, if any, is a number [float] accepts. *)
Definition token_parses (found : option string) : bool :=
  match found with
  | Some token => match py_float token with Ok _ => true | Err _ => false end
  | None => true
  end.

Definition line_parses (line : string) : bool :=
  token_parses (SILENCE_START_RE line) && token_parses (SILENCE_END_RE line).

(** The numbers a pattern captures over the lines, in order; a line without
    a match contributes nothing. *)
Definition captured (pattern : string -> option string) (lines : list string) : list Q :=
  flat_map (fun line =>
              match pattern line with
              | Some token => match py_float token with Ok v => [v] | Err _ => [] end
              | None => []
              end) lines.

Local Close Scope string_scope.

(** ** _combine_exports and _run

    The file system is a finite map from paths to file contents; it is
    passed through the method and returned next to the outcome. *)

Local Open Scope string_scope.

(** An entry of the list [_export_segments] returns. *)
Record export : Type := {
  export_name : string;
  export_start : Q;
  export_end : Q;
  export_duration : Q;
  export_path : string
}.

(** What the method gets from outside: [Path.resolve().as_posix()],
    whether [concat_file.open("w")] succeeds, and the external command,
    which maps the file system to a new one and a return code. *)
Record environment : Type := {
  resolve : string -> string;
  open_succeeds : bool;
  subprocess_run : list string -> gmap string string -> gmap string string * Z
}.

(** [dir / name] on POSIX paths. *)
Definition path_join (dir name : string) : string :=
  match name with
  | String "/" _ => name
  | _ => dir ++ "/" ++ name
  end.

(** [.replace("'", r"\'")] *)
Fixpoint escape_quotes (s : string) : string :=
  match s with
  | EmptyString => ""
  | String c rest =>
      if Ascii.eqb c "'" then String "\" (String "'" (escape_quotes rest))
      else String c (escape_quotes rest)
  end.

Definition concat_line (env : environment) (e : export) : string :=
  "file '" ++ escape_quotes (resolve env (export_path e)) ++ "'" ++ String "010" "".

Definition concat_listing (env : environment) (exports : list export) : string :=
  fold_left (fun content e => content ++ concat_line env e) exports "".

Definition _run (env : environment) (cmd : list string) (w : gmap string string)
    : result unit * gmap string string :=
  let '(w', returncode) := subprocess_run env cmd w in
  if (returncode =? 0)%Z then (Ok tt, w')
  else (Err (RuntimeError CommandFailed), w').

(** [try: body finally: final]; the final block runs whatever the body
    did, and the body's exception, if any, is raised again after it. *)
Definition try_finally {A} (body : gmap string string -> result A * gmap string string)
    (final : gmap string string -> gmap string string)
    (w : gmap string string) : result A * gmap string string :=
  let '(r, w') := body w in (r, final w').

Definition concat_path (output_dir : string) : string :=
  path_join output_dir ".tone_concat.txt".

Definition concat_command (output_dir combined_name : string) : list string :=
  [ "ffmpeg"; "-y"; "-f"; "concat"; "-safe"; "0"; "-i"; concat_path output_dir;
    "-c"; "copy"; path_join output_dir combined_name ].

Definition combine_exports (env : environment) (output_dir combined_name : string)
    (exports : list export) (w : gmap string string)
    : result string * gmap string string :=
  let combined_path := path_join output_dir combined_name in
  match exports with
  | [] => (Err (RuntimeError NoExportsAvailable), w)
  | _ :: _ =>
      let concat_file := concat_path output_dir in
      let body w :=
        if open_succeeds env then
          let w := <[concat_file := concat_listing env exports]> w in
          _run env (concat_command output_dir combined_name) w
        else (Err OSError, w) in
      let final w :=
        match w !! concat_file with
        | Some _ => delete concat_file w
        | None => w
        end in
      let '(r, w') := try_finally body final w in
      (do _ <- r; Ok combined_path, w')
  end.

Local Close Scope string_scope.

(** ** Further notions for the merge pass and the fitter *)

(** The merge pass as a fold from the empty state: the first segment opens
    the state, every later one goes through [merge_step]. *)
Definition feed (gap_size : Q) (st : option (list interval * interval))
    (seg : interval) : option (list interval * interval) :=
  match st with
  | None => Some ([], seg)
  | Some s => Some (merge_step gap_size s seg)
  end.

(** Neighbours lie more than [g] apart: the next start minus the end before
    it exceeds [g]. *)
Fixpoint separated (g : Q) (l : list interval) : Prop :=
  match l with
  | a :: ((b :: _) as tl) => g < fst b - snd a /\ separated g tl
  | _ => True
  end.

(** The threshold loop in the words of the specification: every pass runs
    over the original segments, and the loop stops at the first threshold
    whose pass gives a count [<= target]. *)
Fixpoint direct_loop (target : Z) (gaps : list Q) (original best : list interval)
    : result (list interval) :=
  match gaps with
  | [] => Ok best
  | gap :: gaps' =>
      do merged <- merge_adjacent original gap;
      if (len merged <=? target)%Z then Ok merged
      else direct_loop target gaps' original merged
  end.

(** ** Further notions for the pairer *)

Definition is_end (ev : event) : bool :=
  match fst ev with
  | KEnd => true
  | KStart => false
  end.

(** What the pairer needs of an event to close intervals the right way
    round: a START not after [duration], an END not before 0. *)
Definition event_in_range (duration : Q) (ev : event) : Prop :=
  match fst ev with
  | KStart => snd ev <= duration
  | KEnd => 0 <= snd ev
  end.

(** ** _detect_segments *)

(** What [subprocess.run(..., capture_output=True, text=True)] hands back. *)
Record completed : Type := {
  returncode : Z;
  stdout : string;
  stderr : string
}.

(** The outcomes of [_detect_segments]: the padded segments, an exception
    of the kinds above, or
    [RuntimeError("No speech regions were detected with the current settings.")]. *)
Inductive detection : Type :=
| Segments (padded : list interval)
| Raised (e : exn)
| NoSpeechRegions.

(** [proc] is the outcome of the silence-detection command; [_run] raises
    when its return code is not 0.  [pad] is [self.config.detect.pad]. *)
Definition detect_segments (proc : completed) (pad duration : Q) : detection :=
  if (returncode proc =? 0)%Z then
    match parse_silence_log (stderr proc) with
    | Err e => Raised e
    | Ok (starts, ends) =>
        let silences := pair_silences starts ends duration in
        let speech_segments := silences_to_speech silences duration in
        let padded := apply_padding pad speech_segments duration in
        match padded with
        | [] => NoSpeechRegions
        | _ :: _ => Segments padded
        end
    end
  else Raised (RuntimeError CommandFailed).

(** A line on which neither pattern matches. *)
Definition no_match (line : string) : bool :=
  match SILENCE_START_RE line, SILENCE_END_RE line with
  | None, None => true
  | _, _ => false
  end.

(** ** _codec_args and _export_segments *)

Local Open Scope string_scope.

Definition codec_args (fmt : string) : list string :=
  if String.eqb fmt "mp3" then ["-acodec"; "libmp3lame"; "-q:a"; "2"]
  else if String.eqb fmt "wav" then ["-acodec"; "pcm_s16le"]
  else if String.eqb fmt "flac" then ["-acodec"; "flac"]
  else ["-acodec"; "copy"].

Definition digit_char (d : Z) : ascii := ascii_of_nat (48 + Z.to_nat d).

Fixpoint decimal_digits (fuel : nat) (n : Z) (acc : string) : string :=
  match fuel with
  | O => acc
  | S fuel' =>
      let acc' := String (digit_char (n mod 10)) acc in
      if (n / 10 =? 0)%Z then acc' else decimal_digits fuel' (n / 10) acc'
  end.

(** The decimal digits of a natural number. *)
Definition decimal (n : Z) : string :=
  decimal_digits (S (Z.to_nat (Z.log2 n))) n "".

(** [f"{x:.3f}"]: sign, integer part, a dot and three decimals, the value
    rounded to the nearest thousandth, ties to even. *)
Definition format_3f (x : Q) : string :=
  let magnitude := if Qgtb 0 x then - x else x in
  let n := round_half_even (magnitude * 1000) in
  (if Qgtb 0 x then "-" else "")
  ++ decimal (n / 1000) ++ "."
  ++ String (digit_char (n / 100 mod 10))
       (String (digit_char (n / 10 mod 10)) (String (digit_char (n mod 10)) "")).

(** The dictionary appended for one clip. *)
Definition export_entry (clips_dir fmt clip_name : string) (seg : interval) : export :=
  {| export_name := clip_name;
     export_start := py_round (fst seg) 3;
     export_end := py_round (snd seg) 3;
     export_duration := py_round (snd seg - fst seg) 3;
     export_path := path_join clips_dir (clip_name ++ "." ++ fmt) |}.

Definition export_command (input_path clips_dir fmt clip_name : string)
    (seg : interval) : list string :=
  ([ "ffmpeg"; "-y"; "-i"; input_path;
     "-ss"; format_3f (fst seg); "-to"; format_3f (snd seg) ]
   ++ codec_args fmt
   ++ [path_join clips_dir (clip_name ++ "." ++ fmt)])%list.

(** The loop of [_export_segments] from index [idx] on: [names[idx]] raises
    [IndexError] past the end of the names, a failing command raises out of
    the loop, and the file system is the one the last command run has left. *)
Fixpoint export_loop (env : environment) (input_path clips_dir fmt : string)
    (names : list string) (idx : nat) (segments : list interval)
    (exports : list export) (w : gmap string string)
    : result (list export) * gmap string string :=
  match segments with
  | [] => (Ok exports, w)
  | seg :: rest =>
      match nth_error names idx with
      | None => (Err IndexError, w)
      | Some clip_name =>
          match _run env (export_command input_path clips_dir fmt clip_name seg) w with
          | (Err e, w') => (Err e, w')
          | (Ok _, w') =>
              export_loop env input_path clips_dir fmt names (S idx) rest
                (exports ++ [export_entry clips_dir fmt clip_name seg])%list w'
          end
      end
  end.

(** [names] is [self.config.clips.names], [fmt] is
    [self.config.general.audio_format], [self.clips_dir] is
    [output_dir / "clips"]. *)
Definition export_segments (env : environment) (input_path output_dir fmt : string)
    (names : list string) (segments : list interval) (w : gmap string string)
    : result (list export) * gmap string string :=
  export_loop env input_path (path_join output_dir "clips") fmt names 0 segments [] w.

(** The entries for the segments paired with the names in order. *)
Definition named_exports (clips_dir fmt : string) (names : list string)
    (segments : list interval) : list export :=
  List.map (fun p => export_entry clips_dir fmt (fst p) (snd p)) (combine names segments).

Local Close Scope string_scope.

(** ** Order facts about the float builtins *)

Lemma Qgtb_true (a b : Q) : Qgtb a b = true <-> b < a.
Proof.
  unfold Qgtb. rewrite negb_true_iff, <- not_true_iff_false, Qle_bool_iff.
  split; [apply Qnot_le_lt | apply Qlt_not_le].
Qed.

Lemma Qgtb_false (a b : Q) : Qgtb a b = false <-> a <= b.
Proof.
  unfold Qgtb. rewrite negb_false_iff. apply Qle_bool_iff.
Qed.

Lemma Qle_bool_false (a b : Q) : Qle_bool a b = false <-> b < a.
Proof.
  rewrite <- not_true_iff_false, Qle_bool_iff.
  split; [apply Qnot_le_lt | apply Qlt_not_le].
Qed.

Ltac order_cases :=
  repeat match goal with
    | H : Qgtb _ _ = true |- _ => apply Qgtb_true in H
    | H : Qgtb _ _ = false |- _ => apply Qgtb_false in H
    | H : Qle_bool _ _ = true |- _ => apply Qle_bool_iff in H
    | H : Qle_bool _ _ = false |- _ => apply Qle_bool_false in H
    end.

Lemma py_max_ub_l (a b : Q) : a <= py_max a b.
Proof. unfold py_max. destruct (Qgtb b a) eqn:E; order_cases; lra. Qed.

Lemma py_max_ub_r (a b : Q) : b <= py_max a b.
Proof. unfold py_max. destruct (Qgtb b a) eqn:E; order_cases; lra. Qed.

Lemma py_max_lub (a b c : Q) : a <= c -> b <= c -> py_max a b <= c.
Proof. unfold py_max. destruct (Qgtb b a); auto. Qed.

(** ** Merge-pass monotonicity *)

Section MergeMonotone.
Variables t1 t2 : Q.
Hypothesis Ht : t1 <= t2.

Lemma merge_step_lags st1 st2 seg :
  lags st1 st2 -> lags (merge_step t1 st1 seg) (merge_step t2 st2 seg).
Proof using Ht.
  destruct st1 as [f1 [s1 e1]], st2 as [f2 [s2 e2]], seg as [s e].
  unfold lags; simpl. intros [Hlen Hend].
  destruct (Qle_bool (s - e1) t1) eqn:E1, (Qle_bool (s - e2) t2) eqn:E2;
    simpl; order_cases; rewrite ?length_app; simpl.
  - split; [lia|]. apply py_max_lub; [|apply py_max_ub_r].
    eapply Qle_trans; [exact Hend | apply py_max_ub_l].
  - exfalso. lra.
  - split; [lia|]. apply py_max_ub_r.
  - split; [lia|]. lra.
Qed.

Lemma merge_fold_lags rest : forall st1 st2,
  lags st1 st2 ->
  lags (fold_left (merge_step t1) rest st1) (fold_left (merge_step t2) rest st2).
Proof using Ht.
  induction rest as [|seg rest IH]; intros st1 st2 H; simpl; [exact H|].
  apply IH, merge_step_lags, H.
Qed.
End MergeMonotone.

(** C4. Merge-pass monotonicity: on any non-empty input (start-sorted or
    not) and thresholds t1 < t2, one pass of [_merge_adjacent] returns at
    both thresholds, and the pass at t1 yields at least as many intervals
    as the pass at t2. *)
Theorem merge_adjacent_count_monotone (first : interval) (rest : list interval) (t1 t2 : Q) :
  t1 < t2 ->
  exists m1 m2,
    merge_adjacent (first :: rest) t1 = Ok m1 /\
    merge_adjacent (first :: rest) t2 = Ok m2 /\
    (length m2 <= length m1)%nat.
Proof.
  intros Hlt. unfold merge_adjacent.
  assert (H : lags ([], first) ([], first)).
  { split; simpl; [lia | lra]. }
  apply (merge_fold_lags t1 t2 (Qlt_le_weak _ _ Hlt) rest) in H.
  destruct (fold_left (merge_step t1) rest ([], first)) as [f1 l1].
  destruct (fold_left (merge_step t2) rest ([], first)) as [f2 l2].
  destruct H as [Hlen _]. simpl in Hlen.
  exists (f1 ++ [l1]), (f2 ++ [l2]). repeat split.
  rewrite !length_app. simpl. lia.
Qed.

Lemma merge_adjacent_count_monotone_witness :
  exists m1 m2,
    merge_adjacent [(0, 1); (1 + (1#10), 2); (3, 4)] (5#100) = Ok m1 /\
    merge_adjacent [(0, 1); (1 + (1#10), 2); (3, 4)] (2#10) = Ok m2 /\
    (length m2 <= length m1)%nat.
Proof.
  apply (merge_adjacent_count_monotone (0, 1) [(1 + (1#10), 2); (3, 4)] (5#100) (2#10)).
  reflexivity.
Defined.


(** ** The stable sort *)

Lemma insert_by_length {A} (key : A -> Q) (x : A) (l : list A) :
  length (insert_by key x l) = S (length l).
Proof.
  induction l as [|y l IH]; simpl; [reflexivity|].
  destruct (Qle_bool (key x) (key y)); simpl; congruence.
Qed.

Lemma py_sorted_length {A} (key : A -> Q) (l : list A) :
  length (py_sorted key l) = length l.
Proof.
  induction l as [|x l IH]; simpl; [reflexivity|].
  rewrite insert_by_length. congruence.
Qed.

Lemma start_sorted_tail a l : start_sorted (a :: l) -> start_sorted l.
Proof. destruct l; simpl; tauto. Qed.

(** Sorting an input that is already ordered by start returns it unchanged. *)
Lemma py_sorted_start_sorted (l : list interval) :
  start_sorted l -> py_sorted fst l = l.
Proof.
  induction l as [|a l IH]; intros H; simpl; [reflexivity|].
  rewrite (IH (start_sorted_tail _ _ H)).
  destruct l as [|b l]; simpl; [reflexivity|].
  destruct H as [Hab _]. apply Qle_bool_iff in Hab. now rewrite Hab.
Qed.

Lemma ordered_seq_start_sorted (l : list interval) :
  ordered_seq l -> start_sorted l.
Proof.
  induction l as [|a [|b l] IH]; simpl; auto.
  intros [[H _] Hl]. split; [exact H | apply IH, Hl].
Qed.

Lemma ordered_seq_tail a l : ordered_seq (a :: l) -> ordered_seq l.
Proof. destruct l; simpl; tauto. Qed.

Lemma ordered_seq_app_l (l1 l2 : list interval) :
  ordered_seq (l1 ++ l2) -> ordered_seq l1.
Proof.
  induction l1 as [|a [|b l1] IH]; simpl; auto.
  intros [Hab Hl]. split; [exact Hab | apply IH, Hl].
Qed.

Lemma ordered_seq_app_r (l1 l2 : list interval) :
  ordered_seq (l1 ++ l2) -> ordered_seq l2.
Proof.
  induction l1 as [|a l1 IH]; simpl; auto.
  intros H. apply IH. exact (ordered_seq_tail _ _ H).
Qed.

(** ** C6: too few segments *)

(** C6. With M candidate segments and target N, M < N, the fitter raises
    its [RuntimeError] and returns no segment sequence: "Detected only M
    segments but need N" for a non-empty input, "No segments available to
    fit" for the empty one. *)
Theorem fit_insufficient_segments (target : Z) (segments : list interval) :
  (len segments < target)%Z ->
  fit_segments_to_target target segments =
    Err (RuntimeError (match segments with
                       | [] => NoSegmentsAvailable
                       | _ :: _ => DetectedOnly (len segments) target
                       end)).
Proof.
  intros Hlt. unfold fit_segments_to_target.
  destruct segments as [|s segments]; [reflexivity|].
  assert (Hlen : len (py_sorted fst (s :: segments)) = len (s :: segments)).
  { unfold len. now rewrite py_sorted_length. }
  rewrite Hlen.
  destruct (Z.eqb_spec (len (s :: segments)) target) as [E|_]; [lia|].
  destruct (Z.ltb_spec (len (s :: segments)) target) as [_|E]; [reflexivity|lia].
Qed.

(** Scenario C: 3 candidate segments, target 5. *)
Lemma fit_insufficient_segments_witness :
  fit_segments_to_target 5 [(0, 1); (2, 3); (4, 5)] =
    Err (RuntimeError (DetectedOnly 3 5)).
Proof.
  apply (fit_insufficient_segments 5 [(0, 1); (2, 3); (4, 5)]).
  reflexivity.
Defined.

(** ** Runs and their unions *)

Lemma py_max_assoc (a b c : Q) : py_max (py_max a b) c = py_max a (py_max b c).
Proof.
  unfold py_max.
  destruct (Qgtb b a) eqn:E1, (Qgtb c b) eqn:E2;
    try rewrite E1; try rewrite E2;
    destruct (Qgtb c a) eqn:E3; try reflexivity;
    order_cases; exfalso; lra.
Qed.

Lemma hull_step_fold (rest : list interval) : forall h b : interval,
  fold_left hull_step rest (fst h, py_max (snd h) (snd b)) =
  (fst h, py_max (snd h) (snd (fold_left hull_step rest b))).
Proof.
  induction rest as [|c rest IH]; intros h b; simpl; [reflexivity|].
  unfold hull_step at 2 4. simpl.
  rewrite py_max_assoc.
  exact (IH h (fst b, py_max (snd b) (snd c))).
Qed.

Lemma hull_join (r1 r2 : seg_run) :
  hull (join r1 r2) = (fst (hull r1), py_max (snd (hull r1)) (snd (hull r2))).
Proof.
  unfold hull, join, run_items. simpl.
  rewrite fold_left_app. simpl.
  unfold hull_step at 2.
  apply hull_step_fold.
Qed.

Lemma hull_fst_fold (rest : list interval) : forall a,
  fst (fold_left hull_step rest a) = fst a.
Proof.
  induction rest as [|c rest IH]; intros a; simpl; [reflexivity|].
  now rewrite IH.
Qed.

Lemma hull_fst (r : seg_run) : fst (hull r) = fst (fst r).
Proof. apply hull_fst_fold. Qed.

Lemma hull_snd_le (x : Q) (rest : list interval) : forall a,
  snd a <= x -> Forall (fun i => snd i <= x) rest ->
  snd (fold_left hull_step rest a) <= x.
Proof.
  induction rest as [|c rest IH]; intros a Ha Hr; simpl; [exact Ha|].
  inversion Hr; subst. apply IH; [|assumption].
  simpl. now apply py_max_lub.
Qed.

Lemma flat_app (r1 r2 : list seg_run) : flat (r1 ++ r2) = flat r1 ++ flat r2.
Proof. unfold flat. now rewrite map_app, concat_app. Qed.

Lemma flat_singletons (l : list interval) :
  flat (List.map (fun s => (s, [])) l) = l.
Proof. induction l as [|a l IH]; simpl; [reflexivity|]. unfold flat in *. simpl. now rewrite IH. Qed.

Lemma hull_singletons (l : list interval) :
  List.map hull (List.map (fun s => (s, [])) l) = l.
Proof. induction l as [|a l IH]; simpl; [reflexivity|]. now rewrite IH. Qed.

(** ** The merge pass maps runs to runs *)

Lemma merge_step_runs (g : Q) (fr : list seg_run) (lr sr : seg_run) :
  exists fr' lr',
    merge_step g (List.map hull fr, hull lr) (hull sr) = (List.map hull fr', hull lr') /\
    flat (fr' ++ [lr']) = flat (fr ++ [lr]) ++ run_items sr.
Proof.
  pose proof (hull_join lr sr) as Hj.
  unfold merge_step.
  destruct (hull lr) as [ls le] eqn:El, (hull sr) as [s e] eqn:Es.
  destruct (Qle_bool (s - le) g).
  - exists fr, (join lr sr). split.
    + now rewrite Hj.
    + rewrite !flat_app. unfold flat, join, run_items. simpl.
      rewrite !app_nil_r, <- app_assoc. reflexivity.
  - exists (fr ++ [lr]), sr. split.
    + rewrite map_app. simpl. now rewrite El, Es.
    + rewrite (flat_app (fr ++ [lr]) [sr]). unfold flat at 2. simpl.
      now rewrite app_nil_r.
Qed.

Lemma merge_fold_runs (g : Q) (rest : list seg_run) : forall (fr : list seg_run) (lr : seg_run),
  exists fr' lr',
    fold_left (merge_step g) (List.map hull rest) (List.map hull fr, hull lr)
      = (List.map hull fr', hull lr') /\
    flat (fr' ++ [lr']) = flat (fr ++ [lr]) ++ flat rest.
Proof.
  induction rest as [|sr rest IH]; intros fr lr; cbn [List.map fold_left].
  - exists fr, lr. split; [reflexivity|]. unfold flat at 3. simpl. now rewrite app_nil_r.
  - destruct (merge_step_runs g fr lr sr) as (fr1 & lr1 & Hstep & Hflat).
    rewrite Hstep.
    destruct (IH fr1 lr1) as (fr2 & lr2 & Hfold & Hflat2).
    exists fr2, lr2. split; [exact Hfold|].
    rewrite Hflat2, Hflat, <- app_assoc. reflexivity.
Qed.

Lemma merge_adjacent_runs (g : Q) (r : seg_run) (runs : list seg_run) :
  exists r' runs',
    merge_adjacent (List.map hull (r :: runs)) g = Ok (List.map hull (runs' ++ [r'])) /\
    flat (runs' ++ [r']) = flat (r :: runs).
Proof.
  destruct (merge_fold_runs g runs [] r) as (fr & lr & Hfold & Hflat).
  exists lr, fr. cbn [List.map merge_adjacent] in *. rewrite Hfold. split.
  - rewrite map_app. reflexivity.
  - rewrite Hflat. unfold flat. simpl. now rewrite app_nil_r.
Qed.

Lemma merge_loop_runs (target : Z) (gaps : list Q) : forall (runs : list seg_run),
  runs <> [] ->
  exists runs',
    merge_loop target gaps (List.map hull runs) = Ok (List.map hull runs') /\
    flat runs' = flat runs /\ runs' <> [].
Proof.
  induction gaps as [|g gaps IH]; intros runs Hne; simpl.
  - exists runs. auto.
  - destruct runs as [|r runs]; [congruence|].
    destruct (merge_adjacent_runs g r runs) as (r' & runs' & Hm & Hflat).
    rewrite Hm. simpl.
    assert (Hne' : runs' ++ [r'] <> []) by (destruct runs'; discriminate).
    destruct (len (List.map hull (runs' ++ [r'])) <=? target)%Z.
    + exists (runs' ++ [r']). auto.
    + destruct (IH (runs' ++ [r']) Hne') as (runs2 & Hl & Hf & Hn).
      exists runs2. repeat split; [exact Hl | congruence | exact Hn].
Qed.

(** ** Unions of consecutive runs stay ordered *)

Lemma ordered_seq_all_before (l : list interval) (b : interval) (tl : list interval) :
  ordered_seq (l ++ b :: tl) ->
  Forall (fun i => fst i <= fst b /\ snd i <= fst b) l.
Proof.
  induction l as [|a l IH]; intros H; [constructor|].
  assert (Hl := IH (ordered_seq_tail _ _ H)).
  constructor; [|exact Hl].
  destruct l as [|c l]; simpl in H.
  - destruct H as [[H1 H2] _]. split; assumption.
  - destruct H as [[H1 H2] _]. inversion Hl as [|? ? [Hc _] _]; subst.
    split; eapply Qle_trans; eassumption.
Qed.

Lemma hull_before (r : seg_run) (b : interval) (tl : list interval) :
  ordered_seq (run_items r ++ b :: tl) ->
  fst (hull r) <= fst b /\ snd (hull r) <= fst b.
Proof.
  intros H. apply ordered_seq_all_before in H.
  unfold run_items in H. inversion H as [|? ? [Hs He] Hrest]; subst.
  split.
  - now rewrite hull_fst.
  - apply hull_snd_le; [exact He|].
    eapply Forall_impl; [|exact Hrest]. simpl. tauto.
Qed.

Lemma ordered_hulls (runs : list seg_run) :
  ordered_seq (flat runs) -> ordered_seq (List.map hull runs).
Proof.
  induction runs as [|r runs IH]; intros H; [exact I|].
  change (flat (r :: runs)) with (run_items r ++ flat runs) in H.
  assert (Hr := IH (ordered_seq_app_r _ _ H)).
  destruct runs as [|r2 runs]; [exact I|].
  change (List.map hull (r :: r2 :: runs))
    with (hull r :: List.map hull (r2 :: runs)).
  change (ordered_seq (hull r :: List.map hull (r2 :: runs)))
    with (before (hull r) (hull r2) /\ ordered_seq (List.map hull (r2 :: runs))).
  split; [|exact Hr].
  change (flat (r2 :: runs)) with ((fst r2 :: snd r2) ++ flat runs) in H.
  simpl in H. unfold before. rewrite (hull_fst r2).
  exact (hull_before r (fst r2) _ H).
Qed.

Lemma flat_firstn (n : nat) (runs : list seg_run) :
  exists dropped, flat (firstn n runs) ++ dropped = flat runs.
Proof.
  exists (flat (skipn n runs)). rewrite <- flat_app. now rewrite firstn_skipn.
Qed.

(** ** C1: the fitter on an ordered input with enough segments *)

Lemma len_map {A B} (f : A -> B) (l : list A) : len (List.map f l) = len l.
Proof. unfold len. now rewrite length_map. Qed.

Lemma len_nonempty {A} (l : list A) : l <> [] -> (1 <= len l)%Z.
Proof. destruct l; [congruence|]. unfold len. simpl. lia. Qed.

(** On an input that is already sorted by start, [sorted] is the identity
    and the fitter works on the input itself. *)
Lemma fit_on_start_sorted (target : Z) (s : interval) (l : list interval) :
  start_sorted (s :: l) ->
  fit_segments_to_target target (s :: l) =
    if (len (s :: l) =? target)%Z then Ok (s :: l)
    else if (len (s :: l) <? target)%Z
    then Err (RuntimeError (DetectedOnly (len (s :: l)) target))
    else
      do best <- merge_loop target MERGE_GAPS_SECONDS (s :: l);
      let best := if (len best >? target)%Z then slice_to best target else best in
      if (len best <? target)%Z
      then Err (RuntimeError (UnableToReduce target (len best)))
      else Ok best.
Proof.
  intros H. unfold fit_segments_to_target.
  now rewrite (py_sorted_start_sorted (s :: l) H).
Qed.

(** C1 (amended). On an ordered, non-overlapping input of M >= N segments,
    N >= 1, the fitter either returns exactly N intervals, each the union of
    a contiguous run of the input (the runs are consecutive and cover the
    input up to a dropped tail), again ordered and non-overlapping; or, when
    the first merge pass that reaches a count <= N lands strictly below N,
    it raises "Unable to reduce segments to exactly N" and returns nothing.
    With M = N the input is returned unchanged. *)
Theorem fit_segments_exact_or_overshoot (target : Z) (segments : list interval) :
  ordered_seq segments -> (1 <= target)%Z -> (target <= len segments)%Z ->
  match fit_segments_to_target target segments with
  | Ok out =>
      len out = target /\
      (exists runs dropped,
          flat runs ++ dropped = segments /\ out = List.map hull runs) /\
      ordered_seq out
  | Err e =>
      exists best,
        merge_loop target MERGE_GAPS_SECONDS segments = Ok best /\
        (1 <= len best < target)%Z /\
        e = RuntimeError (UnableToReduce target (len best))
  end /\
  (len segments = target -> fit_segments_to_target target segments = Ok segments).
Proof.
  intros Hord Hpos Hge.
  destruct segments as [|s l]; [unfold len in Hge; simpl in Hge; lia|].
  rewrite (fit_on_start_sorted target s l (ordered_seq_start_sorted _ Hord)).
  set (segs := s :: l) in *.
  destruct (Z.eqb_spec (len segs) target) as [Heq|Hneq].
  { split; [|reflexivity]. split; [exact Heq|]. split; [|exact Hord].
    exists (List.map (fun s => (s, [])) segs), [].
    now rewrite app_nil_r, flat_singletons, hull_singletons. }
  split; [|intros E; contradiction].
  destruct (Z.ltb_spec (len segs) target) as [Hlt|_]; [lia|].
  destruct (merge_loop_runs target MERGE_GAPS_SECONDS
              (List.map (fun s => (s, [])) segs)) as (runs & Hloop & Hflat & Hne);
    [discriminate|].
  rewrite hull_singletons in Hloop. rewrite flat_singletons in Hflat.
  rewrite Hloop. cbn [bind]. cbv zeta.
  rewrite Z.gtb_ltb.
  destruct (Z.ltb_spec target (len (List.map hull runs))) as [Hmore|Hle].
  - (* more than [target] left after every pass: truncate *)
    unfold slice_to. destruct (Z.ltb_spec target 0) as [?|_]; [lia|].
    rewrite firstn_map.
    assert (Hlen : len (List.map hull (firstn (Z.to_nat target) runs)) = target).
    { rewrite len_map in *. unfold len in *. rewrite length_firstn. lia. }
    rewrite Hlen, Z.ltb_irrefl.
    split; [exact Hlen|]. split.
    + destruct (flat_firstn (Z.to_nat target) runs) as [dropped Hd].
      exists (firstn (Z.to_nat target) runs), dropped.
      split; [congruence | reflexivity].
    + apply ordered_hulls.
      destruct (flat_firstn (Z.to_nat target) runs) as [dropped Hd].
      apply (ordered_seq_app_l _ dropped). rewrite Hd, Hflat. exact Hord.
  - destruct (Z.ltb_spec (len (List.map hull runs)) target) as [Hless|Hge'].
    + exists (List.map hull runs). split; [reflexivity|]. split; [|reflexivity].
      split; [|exact Hless]. rewrite len_map. now apply len_nonempty.
    + split; [lia|]. split.
      * exists runs, []. rewrite app_nil_r. auto.
      * apply ordered_hulls. rewrite Hflat. exact Hord.
Qed.

Lemma fit_segments_exact_or_overshoot_witness :
  let segments := [(0, 1); (1 + (4 # 100), 2); (3, 4)] in
  match fit_segments_to_target 2 segments with
  | Ok out =>
      len out = 2%Z /\
      (exists runs dropped,
          flat runs ++ dropped = segments /\ out = List.map hull runs) /\
      ordered_seq out
  | Err e =>
      exists best,
        merge_loop 2 MERGE_GAPS_SECONDS segments = Ok best /\
        (1 <= len best < 2)%Z /\
        e = RuntimeError (UnableToReduce 2 (len best))
  end /\
  (len segments = 2%Z -> fit_segments_to_target 2 segments = Ok segments).
Proof.
  apply (fit_segments_exact_or_overshoot 2 [(0, 1); (1 + (4 # 100), 2); (3, 4)]).
  - vm_compute. repeat split; intro; discriminate.
  - lia.
  - vm_compute. intro; discriminate.
Defined.

(** C1, as stated, fails: three segments 10 ms apart with target 2 collapse
    to a single interval at the first threshold (60 ms), and the fitter
    raises instead of returning two intervals. *)
Lemma fit_overshoot_counterexample :
  let segments := [(0, 1); (1 + (1 # 100), 2); (2 + (1 # 100), 3)] in
  ordered_seq segments /\ (1 <= 2 <= len segments)%Z /\
  fit_segments_to_target 2 segments = Err (RuntimeError (UnableToReduce 2 1)).
Proof.
  simpl. repeat split; try (unfold Qle; simpl; lia); try (vm_compute; discriminate).
Qed.

(** ** C5: scenario B *)

(** The thresholds: 25 of them, 60 ms to 300 ms in steps of 10 ms. *)
Example merge_gaps_range :
  length MERGE_GAPS_SECONDS = 25%nat /\
  List.hd 0 MERGE_GAPS_SECONDS = 60 # 1000 /\
  List.last MERGE_GAPS_SECONDS 0 = 300 # 1000.
Proof. repeat split. Qed.

Lemma py_max_r (a b : Q) : a < b -> py_max a b = b.
Proof.
  intros H. unfold py_max. apply Qgtb_true in H. now rewrite H.
Qed.

Ltac decide_cmp :=
  match goal with
  | |- context [py_max ?a ?b] => rewrite (py_max_r a b) by lra
  | |- context [Qle_bool ?x ?g] =>
      first [ replace (Qle_bool x g) with true
                by (symmetry; apply Qle_bool_iff; lra)
            | replace (Qle_bool x g) with false
                by (symmetry; apply Qle_bool_false; lra) ]
  end.

Ltac twelve_segments segs Hg :=
  do 12 (destruct segs as [|[? ?] segs]; [simpl in Hg; tauto|]);
  (destruct segs; [|simpl in Hg; tauto]).

Lemma scenario_B_first_pass (segs : list interval) :
  Forall timed segs -> gaps_are segs scenario_B_gaps ->
  merge_adjacent segs (60 # 1000) = Ok (pair_up segs).
Proof.
  intros Hw Hg. twelve_segments segs Hg.
  repeat match goal with
         | H : Forall _ (_ :: _) |- _ => inversion H; clear H; subst
         end.
  unfold timed in *. cbn [gaps_are scenario_B_gaps alternate fst snd] in *.
  repeat match goal with H : _ /\ _ |- _ => destruct H end.
  unfold merge_adjacent.
  cbn [fold_left merge_step pair_up fst snd app].
  repeat (decide_cmp; cbn [fold_left merge_step pair_up fst snd app]).
  reflexivity.
Qed.

Lemma scenario_B_start_sorted (segs : list interval) :
  Forall timed segs -> gaps_are segs scenario_B_gaps -> start_sorted segs.
Proof.
  intros Hw Hg. twelve_segments segs Hg.
  repeat match goal with
         | H : Forall _ (_ :: _) |- _ => inversion H; clear H; subst
         end.
  unfold timed in *. cbn [gaps_are scenario_B_gaps alternate fst snd] in *.
  repeat match goal with H : _ /\ _ |- _ => destruct H end.
  cbn [start_sorted fst snd]. repeat split; lra.
Qed.

(** C5. Scenario B: twelve candidate segments (each with start < end) whose
    eleven gaps alternate 40 ms and 500 ms, target 6.  The first threshold
    of the list is 60 ms; the pass at that threshold joins the segments two
    by two across the 40 ms gaps and across no 500 ms gap, and the fitter
    returns exactly these 6 segments. *)
Theorem scenario_B_fit (segs : list interval) :
  Forall timed segs -> gaps_are segs scenario_B_gaps ->
  (exists later, MERGE_GAPS_SECONDS = (60 # 1000) :: later) /\
  merge_adjacent segs (60 # 1000) = Ok (pair_up segs) /\
  fit_segments_to_target 6 segs = Ok (pair_up segs) /\
  len (pair_up segs) = 6%Z.
Proof.
  intros Hw Hg.
  pose proof (scenario_B_first_pass segs Hw Hg) as Hpass.
  pose proof (scenario_B_start_sorted segs Hw Hg) as Hsorted.
  assert (Hlen : len segs = 12%Z /\ len (pair_up segs) = 6%Z).
  { clear Hpass Hsorted Hw. twelve_segments segs Hg. split; reflexivity. }
  destruct Hlen as [H12 H6].
  split; [eexists; vm_compute; reflexivity|].
  split; [exact Hpass|]. split; [|exact H6].
  destruct segs as [|s l]; [discriminate|].
  rewrite (fit_on_start_sorted 6 s l Hsorted), H12.
  change MERGE_GAPS_SECONDS
    with ((60 # 1000) :: List.tl MERGE_GAPS_SECONDS).
  cbn [Z.eqb Z.ltb Z.compare Pos.compare Pos.compare_cont Pos.eqb merge_loop].
  rewrite Hpass. cbn [bind]. rewrite H6.
  change (6 <=? 6)%Z with true. cbv iota. cbn [bind]. cbv zeta.
  rewrite H6. change (6 >? 6)%Z with false. cbv iota.
  rewrite H6. reflexivity.
Qed.

Lemma scenario_B_fit_witness :
  let d := 1 # 10 in
  let segs :=
    [ (0, d); (d + (40 # 1000), 2 * d + (40 # 1000));
      (2 * d + (540 # 1000), 3 * d + (540 # 1000));
      (3 * d + (580 # 1000), 4 * d + (580 # 1000));
      (4 * d + (1080 # 1000), 5 * d + (1080 # 1000));
      (5 * d + (1120 # 1000), 6 * d + (1120 # 1000));
      (6 * d + (1620 # 1000), 7 * d + (1620 # 1000));
      (7 * d + (1660 # 1000), 8 * d + (1660 # 1000));
      (8 * d + (2160 # 1000), 9 * d + (2160 # 1000));
      (9 * d + (2200 # 1000), 10 * d + (2200 # 1000));
      (10 * d + (2700 # 1000), 11 * d + (2700 # 1000));
      (11 * d + (2740 # 1000), 12 * d + (2740 # 1000)) ] in
  (exists later, MERGE_GAPS_SECONDS = (60 # 1000) :: later) /\
  merge_adjacent segs (60 # 1000) = Ok (pair_up segs) /\
  fit_segments_to_target 6 segs = Ok (pair_up segs) /\
  len (pair_up segs) = 6%Z.
Proof.
  intros d segs. apply (scenario_B_fit segs).
  - repeat constructor.
  - vm_compute. repeat split.
Defined.

(** ** C7: the empty log *)

(** C7 (amended). With empty [starts] and [ends] the pairer returns no
    silence; the inverter then returns the single segment (0, d) when the
    duration d exceeds the 1 ms epsilon, and no segment when d <= 1 ms. *)
Theorem empty_log_single_speech (d : Q) :
  pair_silences [] [] d = [] /\
  (EPSILON < d -> silences_to_speech (pair_silences [] [] d) d = [(0, d)]) /\
  (d <= EPSILON -> silences_to_speech (pair_silences [] [] d) d = []).
Proof.
  split; [reflexivity|].
  change (pair_silences [] [] d) with (@nil interval).
  unfold silences_to_speech. cbn [fold_left].
  split; intros H.
  - replace (Qgtb (d - 0) EPSILON) with true; [reflexivity|].
    symmetry. apply Qgtb_true. lra.
  - replace (Qgtb (d - 0) EPSILON) with false; [reflexivity|].
    symmetry. apply Qgtb_false. lra.
Qed.

Lemma empty_log_single_speech_witness :
  pair_silences [] [] 10 = [] /\
  silences_to_speech (pair_silences [] [] 10) 10 = [(0, 10)] /\
  silences_to_speech (pair_silences [] [] (1 # 1000)) (1 # 1000) = [].
Proof.
  destruct (empty_log_single_speech 10) as (H1 & H2 & _).
  destruct (empty_log_single_speech (1 # 1000)) as (_ & _ & H3).
  split; [exact H1|]. split.
  - apply H2. reflexivity.
  - apply H3. vm_compute. intro; discriminate.
Defined.

(** C7, as stated, fails for a positive duration of at most 1 ms: half a
    millisecond of audio gives no speech segment at all. *)
Lemma short_duration_counterexample :
  0 < (1 # 2000) /\
  pair_silences [] [] (1 # 2000) = [] /\
  silences_to_speech (pair_silences [] [] (1 # 2000)) (1 # 2000) = [].
Proof. repeat split. Qed.

(** Scenario A of the specification. *)
Example scenario_A :
  silences_to_speech [(2, 2 + (1 # 10)); (6, 6 + (2 # 10))] 10
  = [(0, 2); (2 + (1 # 10), 6); (6 + (2 # 10), 10)].
Proof. reflexivity. Qed.

(** ** C8: padding *)

Lemma py_max_Qmax (a b : Q) : py_max a b = Qmax a b.
Proof.
  unfold py_max, Qmax, GenericMinMax.gmax.
  destruct (Qgtb b a) eqn:E; order_cases;
    destruct (a ?= b) eqn:C; try reflexivity; exfalso.
  - apply Qeq_alt in C. lra.
  - apply Qgt_alt in C. lra.
  - apply Qlt_alt in C. lra.
Qed.

Lemma py_min_Qmin (a b : Q) : py_min a b = Qmin a b.
Proof.
  unfold py_min, Qmin, GenericMinMax.gmin.
  destruct (Qgtb a b) eqn:E; order_cases;
    destruct (a ?= b) eqn:C; try reflexivity; exfalso.
  - apply Qeq_alt in C. lra.
  - apply Qlt_alt in C. lra.
  - apply Qgt_alt in C. lra.
Qed.

Lemma padding_step_spec (pad duration : Q) (padded : list interval) (seg : interval) :
  padding_step pad duration padded seg =
    padded ++ (if long_enough (padded_window pad duration seg)
               then [padded_window pad duration seg] else []).
Proof.
  destruct seg as [s e]. unfold padding_step, padded_window, long_enough, Qgeb.
  cbn [fst snd]. rewrite py_max_Qmax, py_min_Qmin.
  destruct (Qle_bool _ _); [reflexivity | now rewrite app_nil_r].
Qed.

Lemma padding_fold_spec (pad duration : Q) (segments : list interval) :
  forall padded,
    fold_left (padding_step pad duration) segments padded =
    padded ++ spec_padding pad segments duration.
Proof.
  induction segments as [|seg segments IH]; intros padded.
  - simpl. now rewrite app_nil_r.
  - cbn [fold_left]. rewrite IH, padding_step_spec, <- app_assoc.
    unfold spec_padding. cbn [List.map List.filter].
    now destruct (long_enough _).
Qed.

Lemma spec_padding_app (pad duration : Q) (l1 l2 : list interval) :
  spec_padding pad (l1 ++ l2) duration =
    spec_padding pad l1 duration ++ spec_padding pad l2 duration.
Proof. unfold spec_padding. now rewrite map_app, filter_app. Qed.

Lemma spec_padding_within (pad duration : Q) (segments : list interval) :
  Forall (fun w => 0 <= fst w /\ snd w <= duration)
         (spec_padding pad segments duration).
Proof.
  apply Forall_forall. intros w Hin.
  unfold spec_padding in Hin. apply filter_In in Hin. destruct Hin as [Hin _].
  apply in_map_iff in Hin. destruct Hin as (seg & <- & _).
  unfold padded_window. cbn [fst snd].
  split; [apply Q.le_max_l | apply Q.le_min_l].
Qed.

(** C8. The padding applier returns the input segments, in order, each
    mapped to (max(0, start - pad), min(Duration, end + pad)) and kept
    exactly when the padded length is at least 50 ms; every segment it
    returns has start >= 0 and end <= Duration; and a segment whose padded
    length is 30 ms contributes nothing to the output. *)
Theorem apply_padding_spec (pad duration : Q) (segments : list interval) :
  apply_padding pad segments duration = spec_padding pad segments duration /\
  Forall (fun w => 0 <= fst w /\ snd w <= duration)
         (apply_padding pad segments duration) /\
  (forall earlier seg later,
      segments = earlier ++ seg :: later ->
      snd (padded_window pad duration seg) - fst (padded_window pad duration seg)
        == 30 # 1000 ->
      apply_padding pad segments duration =
        apply_padding pad earlier duration ++ apply_padding pad later duration).
Proof.
  assert (Heq : forall l, apply_padding pad l duration = spec_padding pad l duration).
  { intros l. unfold apply_padding. now rewrite padding_fold_spec. }
  split; [apply Heq|]. split.
  - rewrite Heq. apply spec_padding_within.
  - intros earlier seg later -> Hlen.
    rewrite !Heq, spec_padding_app. f_equal.
    change (seg :: later) with ([seg] ++ later).
    rewrite spec_padding_app.
    replace (spec_padding pad [seg] duration) with (@nil interval); [reflexivity|].
    unfold spec_padding. cbn [List.map List.filter].
    replace (long_enough (padded_window pad duration seg)) with false; [reflexivity|].
    symmetry. unfold long_enough, MIN_SEGMENT_DURATION. apply Qle_bool_false.
    rewrite Hlen. reflexivity.
Qed.

(** Scenario D: with pad 5 ms, the 20 ms segment (1, 1.02) pads to 30 ms
    and is dropped between its two neighbours. *)
Lemma apply_padding_spec_witness :
  apply_padding (5 # 1000) [(0, 1 # 2); (1, 1 + (20 # 1000)); (2, 3)] 3 =
    apply_padding (5 # 1000) [(0, 1 # 2)] 3 ++ apply_padding (5 # 1000) [(2, 3)] 3.
Proof.
  apply (proj2 (proj2 (apply_padding_spec (5 # 1000) 3
                         [(0, 1 # 2); (1, 1 + (20 # 1000)); (2, 3)]))
           [(0, 1 # 2)] (1, 1 + (20 # 1000)) [(2, 3)]).
  - reflexivity.
  - reflexivity.
Defined.

(** ** C2: the silence pairer *)

Lemma sorted_by_tail {A} (key : A -> Q) a l : sorted_by key (a :: l) -> sorted_by key l.
Proof. destruct l; simpl; tauto. Qed.

Lemma insert_by_sorted {A} (key : A -> Q) (x : A) (l : list A) :
  sorted_by key l -> sorted_by key (insert_by key x l).
Proof.
  induction l as [|y l IH]; intros H; [exact I|].
  cbn [insert_by]. destruct (Qle_bool (key x) (key y)) eqn:E; order_cases.
  - split; assumption.
  - specialize (IH (sorted_by_tail _ _ _ H)).
    destruct l as [|z l].
    + simpl. split; [lra | exact I].
    + cbn [insert_by] in *. destruct H as [Hyz _].
      destruct (Qle_bool (key x) (key z)); (split; [lra || assumption | exact IH]).
Qed.

Lemma py_sorted_sorted {A} (key : A -> Q) (l : list A) :
  sorted_by key (py_sorted key l).
Proof.
  induction l as [|x l IH]; [exact I|].
  apply insert_by_sorted, IH.
Qed.

Lemma insert_by_In {A} (key : A -> Q) (x y : A) (l : list A) :
  In y (insert_by key x l) -> y = x \/ In y l.
Proof.
  induction l as [|z l IH]; simpl.
  - intros [H|[]]; auto.
  - destruct (Qle_bool (key x) (key z)); simpl.
    + intros [H|H]; auto.
    + intros [H|H]; auto. destruct (IH H); auto.
Qed.

Lemma py_sorted_In {A} (key : A -> Q) (y : A) (l : list A) :
  In y (py_sorted key l) -> In y l.
Proof.
  induction l as [|x l IH]; simpl; [tauto|].
  intros H. apply insert_by_In in H. destruct H; auto.
Qed.

Lemma all_le_mono (x y : Q) (l : list interval) :
  x <= y -> all_le x l -> all_le y l.
Proof.
  intros Hxy H. eapply Forall_impl; [|exact H].
  intros i [H1 H2]. split; lra.
Qed.

Lemma ordered_seq_snoc (l : list interval) (c e : Q) :
  ordered_seq l -> all_le c l -> ordered_seq (l ++ [(c, e)]).
Proof.
  induction l as [|a [|b l] IH]; intros Ho Hle; [exact I| |].
  - inversion Hle as [|? ? [H1 H2] _]; subst. simpl. unfold before. simpl. tauto.
  - destruct Ho as [Hab Ho]. inversion Hle; subst.
    split; [exact Hab | apply IH; assumption].
Qed.

Lemma all_le_snoc (x : Q) (l : list interval) (c e : Q) :
  all_le x l -> c <= x -> e <= x -> all_le x (l ++ [(c, e)]).
Proof.
  intros Hl Hc He. apply Forall_app. split; [exact Hl|].
  constructor; [simpl; split; assumption | constructor].
Qed.

Lemma sweep_step (t : Q) (prev_end : bool) (st : list interval * option Q)
    (k : kind) (ts : Q) (evs : list event) :
  sweep_inv t prev_end st -> sweep_todo t prev_end ((k, ts) :: evs) ->
  sweep_inv ts (match k with KEnd => true | KStart => false end) (pair_step st (k, ts)) /\
  sweep_todo ts (match k with KEnd => true | KStart => false end) evs.
Proof.
  destruct st as [silences current].
  intros (Hord & Hle & Hpos & Hcur) (Hsorted & Hnde & Hts & Hprev).
  assert (Hpos' : 0 <= ts) by lra.
  assert (Hle' : all_le ts silences) by (apply (all_le_mono t ts); assumption).
  split.
  - destruct k; cbn [pair_step sweep_inv].
    + destruct current as [c|].
      * destruct Hcur as [Hc Hct].
        split; [exact Hord|]. split; [exact Hle'|]. split; [exact Hpos'|].
        split; [exact Hc | lra].
      * split; [exact Hord|]. split; [exact Hle'|]. split; [exact Hpos'|].
        split; [exact Hle' | lra].
    + destruct current as [c|].
      * destruct Hcur as [Hc Hct].
        split; [now apply ordered_seq_snoc|].
        split; [apply all_le_snoc; [exact Hle' | lra | lra]|].
        split; [exact Hpos' | now right].
      * destruct Hcur as [->|Hpe]; [|specialize (Hprev Hpe); discriminate].
        split; [exact I|].
        split; [apply all_le_snoc; [constructor | exact Hpos' | lra]|].
        split; [exact Hpos' | now right].
  - unfold sweep_todo. split; [exact (sorted_by_tail _ _ _ Hsorted)|].
    destruct evs as [|[k2 ts2] evs].
    + split; exact I.
    + destruct Hsorted as [H12 _]. cbn [snd] in H12.
      destruct k, k2; cbn in Hnde |- *.
      * split; [exact Hnde|]. split; [exact H12 | reflexivity].
      * split; [exact Hnde|]. split; [exact H12 | discriminate].
      * split; [exact Hnde|]. split; [exact H12 | reflexivity].
      * contradiction.
Qed.

Lemma sweep_fold (evs : list event) : forall t prev_end st,
  sweep_inv t prev_end st -> sweep_todo t prev_end evs ->
  exists t' prev_end', sweep_inv t' prev_end' (fold_left pair_step evs st).
Proof.
  induction evs as [|[k ts] evs IH]; intros t pe st Hinv Htodo.
  - exists t, pe. exact Hinv.
  - destruct (sweep_step t pe st k ts evs Hinv Htodo) as [Hinv' Htodo'].
    exact (IH _ _ _ Hinv' Htodo').
Qed.

(** C2 (amended). For non-negative timestamps such that, once the events
    are ordered by time, no END directly follows another END (so only the
    very first event can be an END without an open START), and for every
    Duration, the pairer returns intervals ordered by start and
    non-overlapping.  Repeated STARTs and a START left open at the end of
    the log are allowed. *)
Theorem pair_silences_ordered (starts ends : list Q) (duration : Q) :
  Forall (fun v => 0 <= v) starts -> Forall (fun v => 0 <= v) ends ->
  no_double_end (sorted_events starts ends) ->
  ordered_seq (pair_silences starts ends duration).
Proof.
  intros Hs He Hnde. unfold pair_silences.
  assert (Hinv : sweep_inv 0 false ([], None)).
  { cbn. repeat split; [constructor | lra | now left]. }
  assert (Htodo : sweep_todo 0 false (sorted_events starts ends)).
  { split; [apply py_sorted_sorted|]. split; [exact Hnde|].
    destruct (sorted_events starts ends) as [|[k ts] evs] eqn:E; [exact I|].
    split; [|discriminate].
    assert (Hin : In (k, ts) (sorted_events starts ends)) by (rewrite E; now left).
    apply py_sorted_In, in_app_or in Hin.
    destruct Hin as [Hin|Hin]; apply in_map_iff in Hin;
      destruct Hin as (v & Hv & Hin); inversion Hv; subst.
    - exact (proj1 (Forall_forall _ _) Hs _ Hin).
    - exact (proj1 (Forall_forall _ _) He _ Hin). }
  destruct (sweep_fold _ _ _ _ Hinv Htodo) as (t & pe & Hfinal).
  destruct (fold_left pair_step (sorted_events starts ends) ([], None))
    as [silences [c|]]; cbn [sweep_inv] in Hfinal.
  - destruct Hfinal as (Hord & _ & _ & Hc & _). now apply ordered_seq_snoc.
  - tauto.
Qed.

(** A log with a repeated START, a closed silence and a START left open. *)
Lemma pair_silences_ordered_witness :
  ordered_seq (pair_silences [1; 1 + (1 # 2); 4] [2] 10).
Proof.
  apply (pair_silences_ordered [1; 1 + (1 # 2); 4] [2] 10).
  - repeat constructor; intro; discriminate.
  - repeat constructor; intro; discriminate.
  - vm_compute. exact I.
Defined.

(** C2, as stated, fails.  Two dangling ENDs give two intervals that both
    start at 0 and overlap; and a log whose second silence starts exactly
    where the first one ends has its START sorted before that END, which
    leaves the last END dangling and puts an interval starting at 0 after
    one starting at 1. *)
Lemma dangling_ends_counterexample :
  pair_silences [] [1; 2] 3 = [(0, 1); (0, 2)] /\
  ~ ordered_seq (pair_silences [] [1; 2] 3) /\
  pair_silences [1; 2] [2; 3] 3 = [(1, 2); (0, 3)] /\
  ~ ordered_seq (pair_silences [1; 2] [2; 3] 3).
Proof.
  split; [reflexivity|]. split.
  - vm_compute. intros [[_ H] _]. apply H. reflexivity.
  - split; [reflexivity|].
    vm_compute. intros [[H _] _]. apply H. reflexivity.
Qed.

(** ** C10: the even split *)

Lemma fold_append_map {A B} (f : A -> B) (l : list A) : forall acc,
  fold_left (fun acc x => acc ++ [f x]) l acc = acc ++ List.map f l.
Proof.
  induction l as [|x l IH]; intros acc; simpl.
  - now rewrite app_nil_r.
  - rewrite IH, <- app_assoc. reflexivity.
Qed.

Lemma split_evenly_map (count : Z) (duration : Q) :
  count <> 0%Z ->
  split_evenly count duration =
    Ok (List.map (even_segment count duration (duration / inject_Z count))
                 (py_range count)).
Proof.
  intros H. unfold split_evenly.
  destruct (Z.eqb_spec count 0) as [E|_]; [contradiction|].
  cbv zeta.
  now rewrite (fold_append_map (even_segment count duration (duration / inject_Z count))).
Qed.

Lemma even_segments_contiguous (count : Z) (duration L : Q) (n : nat) : forall a : nat,
  (Z.of_nat (a + n) <= count)%Z ->
  contiguous (List.map (even_segment count duration L) (List.map Z.of_nat (seq a n))).
Proof.
  induction n as [|n IH]; intros a Ha; [exact I|].
  specialize (IH (S a)).
  destruct n as [|n]; [exact I|].
  cbn [seq List.map contiguous] in *. split.
  - unfold even_segment. cbn [fst snd].
    destruct (Z.eqb_spec (Z.of_nat a) (count - 1)) as [E|_]; [lia|].
    now rewrite Nat2Z.inj_succ.
  - apply IH. lia.
Qed.

Lemma round_half_even_close (q : Q) :
  - (1 # 2) <= inject_Z (round_half_even q) - q <= 1 # 2.
Proof.
  unfold round_half_even.
  pose proof (Qfloor_le q) as Hlo.
  pose proof (Qlt_floor q) as Hhi.
  rewrite inject_Z_plus in Hhi. change (inject_Z 1) with 1 in Hhi.
  destruct (Qgtb (1 # 2) (q - inject_Z (Qfloor q))) eqn:E1.
  { order_cases. split; lra. }
  destruct (Qgtb (q - inject_Z (Qfloor q)) (1 # 2)) eqn:E2.
  { order_cases. rewrite inject_Z_plus. change (inject_Z 1) with 1. split; lra. }
  order_cases.
  destruct (Z.even (Qfloor q)); rewrite ?inject_Z_plus;
    change (inject_Z 1) with 1; split; lra.
Qed.

Lemma round_half_even_zero (q : Q) : q == 0 -> round_half_even q = 0%Z.
Proof.
  intros H. unfold round_half_even.
  assert (Hf : Qfloor q = 0%Z) by (rewrite H; reflexivity).
  rewrite Hf.
  replace (Qgtb (1 # 2) (q - inject_Z 0)) with true; [reflexivity|].
  symmetry. apply Qgtb_true. rewrite H. reflexivity.
Qed.

Lemma py_round_5_close (x : Q) :
  - (5 # 1000000) <= py_round x 5 - x <= 5 # 1000000.
Proof.
  unfold py_round.
  change (inject_Z (10 ^ Z.of_nat 5)) with (100000 # 1).
  pose proof (round_half_even_close (x * (100000 # 1))) as H.
  set (z := inject_Z (round_half_even (x * (100000 # 1)))) in *.
  assert (E : z / (100000 # 1) == z * (1 # 100000)) by (field; discriminate).
  rewrite E. split; lra.
Qed.

(** C10 (amended). With detection disabled the pipeline takes the even
    split, and for a count of at least 1 [_split_evenly] returns exactly
    [count] segments, each ending exactly where the next one starts (both
    are the same rounded boundary), the first one starting at 0, and the
    last one ending at the probed duration rounded to 5 decimals, which is
    within 0.000005 of the duration itself. *)
Theorem split_evenly_contiguous (count : Z) (duration : Q)
    (detected : result (list interval)) :
  (1 <= count)%Z ->
  exists segs,
    candidate_segments false detected count duration = Ok segs /\
    split_evenly count duration = Ok segs /\
    len segs = count /\
    contiguous segs /\
    (exists first rest, segs = first :: rest /\ fst first == 0) /\
    snd (last segs (0, 0)) = py_round duration 5 /\
    - (5 # 1000000) <= py_round duration 5 - duration <= 5 # 1000000.
Proof.
  intros Hcount.
  set (L := duration / inject_Z count).
  exists (List.map (even_segment count duration L) (py_range count)).
  assert (Hsplit : split_evenly count duration =
            Ok (List.map (even_segment count duration L) (py_range count)))
    by (apply split_evenly_map; lia).
  split; [exact Hsplit|]. split; [exact Hsplit|].
  unfold py_range.
  destruct (Z.to_nat count) as [|m] eqn:Em; [lia|].
  split; [|split; [|split; [|split]]].
  - unfold len. rewrite !length_map, length_seq. lia.
  - apply even_segments_contiguous. lia.
  - cbn [seq List.map]. eexists _, _. split; [reflexivity|].
    unfold even_segment. cbn [fst]. unfold py_round.
    rewrite round_half_even_zero; [reflexivity|].
    change (inject_Z (Z.of_nat 0)) with 0. ring.
  - rewrite seq_S, !map_app. cbn [List.map plus]. rewrite last_last.
    unfold even_segment. cbn [snd].
    destruct (Z.eqb_spec (Z.of_nat m) (count - 1)) as [_|E]; [reflexivity|lia].
  - apply py_round_5_close.
Qed.

Lemma split_evenly_contiguous_witness :
  exists segs,
    candidate_segments false (Err (RuntimeError CommandFailed)) 4 10 = Ok segs /\
    split_evenly 4 10 = Ok segs /\
    len segs = 4%Z /\
    contiguous segs /\
    (exists first rest, segs = first :: rest /\ fst first == 0) /\
    snd (last segs (0, 0)) = py_round 10 5 /\
    - (5 # 1000000) <= py_round 10 5 - 10 <= 5 # 1000000.
Proof.
  apply (split_evenly_contiguous 4 10 (Err (RuntimeError CommandFailed))).
  lia.
Defined.

(** C10, as stated, fails on the last boundary: the last end is rounded
    like every other boundary, so a duration of 1.000004 s with a single
    clip gives the segment (0, 1), which ends before the probed duration. *)
Lemma split_evenly_last_end_counterexample :
  exists segs,
    split_evenly 1 (1000004 # 1000000) = Ok segs /\
    snd (last segs (0, 0)) == 1 /\
    ~ snd (last segs (0, 0)) == 1000004 # 1000000.
Proof.
  eexists. split; [vm_compute; reflexivity|].
  split; [reflexivity | discriminate].
Qed.

(** ** C3: the silence-log parser *)

Example splitlines_ex :
  splitlines ("a" ++ String "013" (String "010" (String "010" "b")))%string
  = ["a"; ""; "b"]%string.
Proof. reflexivity. Qed.

Example parse_ffmpeg_log :
  parse_silence_log
    ("[silencedetect @ 0x55d] silence_start: 1.25" ++ String "010"
     ("size=N/A time=00:00:03.00 bitrate=N/A" ++ String "010"
      "[silencedetect @ 0x55d] silence_end: 2.5 | silence_duration: 1.25"))%string
  = Ok ([125 # 100], [25 # 10]).
Proof. reflexivity. Qed.

Lemma py_float_error (token : string) (e : exn) :
  py_float token = Err e -> e = ValueError.
Proof.
  unfold py_float.
  destruct (read_digits token 0%Z 0%nat) as [[ip ni] rest].
  destruct rest as [|c rest'].
  - destruct (ni =? 0)%nat; congruence.
  - destruct (Ascii.eqb c "."); [|congruence].
    destruct (read_digits rest' ip 0%nat) as [[fp nf] rest''].
    destruct rest''; [|congruence].
    destruct (ni + nf =? 0)%nat; congruence.
Qed.

Lemma append_match_cases (found : option string) (values : list Q) :
  (token_parses found = true /\
   append_match found values =
     Ok (values ++ match found with
                   | Some token => match py_float token with Ok v => [v] | Err _ => [] end
                   | None => []
                   end)) \/
  (token_parses found = false /\ append_match found values = Err ValueError).
Proof.
  destruct found as [token|]; cbn [token_parses append_match].
  - destruct (py_float token) as [v|e] eqn:E; cbn [bind].
    + left. split; reflexivity.
    + right. apply py_float_error in E. subst. split; reflexivity.
  - left. split; [reflexivity | now rewrite app_nil_r].
Qed.

Lemma parse_lines_spec (lines : list string) : forall starts ends,
  parse_lines lines (starts, ends) =
    if forallb line_parses lines
    then Ok (starts ++ captured SILENCE_START_RE lines,
             ends ++ captured SILENCE_END_RE lines)
    else Err ValueError.
Proof.
  induction lines as [|line lines IH]; intros starts ends.
  - cbn. now rewrite !app_nil_r.
  - cbn [parse_lines parse_line forallb captured flat_map]. unfold line_parses.
    destruct (append_match_cases (SILENCE_START_RE line) starts) as [[Hs Es]|[Hs Es]];
      rewrite Hs, Es; cbn [bind andb]; [|reflexivity].
    destruct (append_match_cases (SILENCE_END_RE line) ends) as [[He Ee]|[He Ee]];
      rewrite He, Ee; cbn [bind andb]; [|reflexivity].
    rewrite IH. unfold captured. now rewrite <- !app_assoc.
Qed.

(** C3 (amended). When every token captured by one of the two patterns is
    a number that [float] accepts, the parser returns normally with the
    captured numbers of each pattern in line order, lines matching neither
    pattern contributing nothing.  A captured token that is not a number
    is not skipped: the parser raises [ValueError] and returns nothing. *)
Theorem parse_silence_log_tokens (log : string) :
  (forallb line_parses (splitlines log) = true ->
   parse_silence_log log =
     Ok (captured SILENCE_START_RE (splitlines log),
         captured SILENCE_END_RE (splitlines log))) /\
  (forallb line_parses (splitlines log) = false ->
   parse_silence_log log = Err ValueError) /\
  (forall st line,
      SILENCE_START_RE line = None -> SILENCE_END_RE line = None ->
      parse_line st line = Ok st).
Proof.
  unfold parse_silence_log. rewrite parse_lines_spec.
  split; [|split].
  - now intros ->.
  - now intros ->.
  - intros [starts ends] line Hs He. unfold parse_line. now rewrite Hs, He.
Qed.

Lemma parse_silence_log_tokens_witness :
  let log :=
    ("silence_start: 1.25" ++ String "010"
     ("frame=  120 fps=0.0" ++ String "010" "silence_end: 2.5 | silence_duration: 1.25"))%string in
  parse_silence_log log = Ok ([125 # 100], [25 # 10]) /\
  parse_line ([1], [2]) "frame=  120 fps=0.0"%string = Ok ([1], [2]).
Proof.
  intros log.
  destruct (parse_silence_log_tokens log) as (Hok & _ & Hskip).
  split.
  - apply Hok. reflexivity.
  - apply Hskip; reflexivity.
Defined.

(** C3, as stated, fails: a line whose captured token has two dots is not
    skipped; [float] raises and the well-formed lines around it are lost. *)
Lemma malformed_token_counterexample :
  let log :=
    ("silence_start: 1.5" ++ String "010"
     ("silence_start: 1.2.3" ++ String "010" "silence_end: 2.0"))%string in
  SILENCE_START_RE "silence_start: 1.2.3"%string = Some "1.2.3"%string /\
  py_float "1.2.3"%string = Err ValueError /\
  parse_silence_log log = Err ValueError.
Proof. repeat split. Qed.

(** ** C9: the concatenation list is removed *)

Lemma final_removes (path : string) (w : gmap string string) :
  match w !! path with
  | Some _ => delete path w
  | None => w
  end !! path = None.
Proof.
  destruct (w !! path) eqn:E; [apply lookup_delete_eq | exact E].
Qed.

(** C9. When there is something to combine, the concatenation list file
    does not exist once [_combine_exports] is over, whatever the outcome:
    the method returns the combined path when the external command returns
    0, raises the command failure when it returns another code, and in both
    cases the list it wrote has been removed; the same holds when the list
    could not even be opened.  The external command is called with the
    list in place. *)
Theorem combine_exports_removes_listing (env : environment)
    (output_dir combined_name : string) (e : export) (exports : list export)
    (w : gmap string string) :
  let listed := <[concat_path output_dir := concat_listing env (e :: exports)]> w in
  let outcome := combine_exports env output_dir combined_name (e :: exports) w in
  let external := subprocess_run env (concat_command output_dir combined_name) listed in
  snd outcome !! concat_path output_dir = None /\
  listed !! concat_path output_dir = Some (concat_listing env (e :: exports)) /\
  (open_succeeds env = true -> snd external = 0%Z ->
     fst outcome = Ok (path_join output_dir combined_name)) /\
  (open_succeeds env = true -> snd external <> 0%Z ->
     fst outcome = Err (RuntimeError CommandFailed)) /\
  (open_succeeds env = false -> fst outcome = Err OSError).
Proof.
  cbv zeta. unfold combine_exports, try_finally, _run.
  split; [|split; [apply lookup_insert_eq|]].
  - destruct (open_succeeds env).
    + destruct (subprocess_run env _ _) as [w' rc].
      destruct (rc =? 0)%Z; cbn [snd]; apply final_removes.
    + cbn [snd]. apply final_removes.
  - split; [|split]; intros Hopen; rewrite Hopen; [| |reflexivity].
    + destruct (subprocess_run env _ _) as [w' rc]. cbn [snd]. intros ->.
      reflexivity.
    + destruct (subprocess_run env _ _) as [w' rc]. cbn [snd]. intros Hrc.
      destruct (Z.eqb_spec rc 0); [contradiction | reflexivity].
Qed.

(** With nothing to combine the method raises before it touches a file. *)
Lemma combine_exports_nothing (env : environment) (output_dir combined_name : string)
    (w : gmap string string) :
  combine_exports env output_dir combined_name [] w =
    (Err (RuntimeError NoExportsAvailable), w).
Proof. reflexivity. Qed.

Lemma combine_exports_removes_listing_witness :
  let clip := {| export_name := "ma1"; export_start := 0; export_end := 1;
                 export_duration := 1; export_path := "/out/clips/ma1.mp3" |} in
  let failing := {| resolve := fun p => p; open_succeeds := true;
                    subprocess_run := fun _ w => (w, 1%Z) |} in
  let outcome := combine_exports failing "/out" "all.mp3" [clip] ∅ in
  snd outcome !! concat_path "/out" = None /\
  fst outcome = Err (RuntimeError CommandFailed).
Proof.
  intros clip failing outcome.
  pose proof (combine_exports_removes_listing failing "/out" "all.mp3" clip [] ∅)
    as (Hgone & _ & _ & Hfail & _).
  split; [exact Hgone|].
  apply Hfail; [reflexivity | discriminate].
Defined.

(** * Further properties of the code *)

(** ** The merge pass: counts, fixed points, composition *)

Lemma merge_fold_front_length (g : Q) (rest : list interval) : forall st,
  (length (fst (fold_left (merge_step g) rest st)) <= length (fst st) + length rest)%nat.
Proof.
  induction rest as [|seg rest IH]; intros st; cbn [fold_left length]; [lia|].
  specialize (IH (merge_step g st seg)).
  assert (H : (length (fst (merge_step g st seg)) <= S (length (fst st)))%nat).
  { destruct st as [front [ls le]], seg as [s e]. unfold merge_step.
    destruct (Qle_bool (s - le) g); cbn [fst]; rewrite ?length_app; simpl; lia. }
  lia.
Qed.

Lemma merge_adjacent_nonempty (segments merged : list interval) (g : Q) :
  merge_adjacent segments g = Ok merged -> merged <> [].
Proof.
  destruct segments as [|first rest]; [discriminate|].
  unfold merge_adjacent.
  destruct (fold_left (merge_step g) rest ([], first)) as [front last].
  intros [= <-]. destruct front; discriminate.
Qed.

(** X1. One pass never returns more intervals than it was given, and never
    returns none. *)
Theorem merge_adjacent_count_bounds (segments merged : list interval) (g : Q) :
  merge_adjacent segments g = Ok merged ->
  (1 <= length merged <= length segments)%nat.
Proof.
  destruct segments as [|first rest]; [discriminate|].
  unfold merge_adjacent.
  pose proof (merge_fold_front_length g rest ([], first)) as H.
  destruct (fold_left (merge_step g) rest ([], first)) as [front last].
  intros [= <-]. rewrite length_app. cbn in *. lia.
Qed.

Lemma merge_adjacent_count_bounds_witness :
  let segments := [(0, 1); (1 + (4 # 100), 2); (3, 4)] in
  let merged := [(0, 2); (3, 4)] in
  (1 <= length merged <= length segments)%nat.
Proof.
  intros segments merged.
  apply (merge_adjacent_count_bounds [(0, 1); (1 + (4 # 100), 2); (3, 4)]
           [(0, 2); (3, 4)] (60 # 1000)).
  reflexivity.
Defined.

Lemma separated_tail g a l : separated g (a :: l) -> separated g l.
Proof. destruct l; simpl; tauto. Qed.

Lemma separated_snoc_same_start (g : Q) (l : list interval) (a a' : interval) :
  fst a = fst a' -> separated g (l ++ [a]) -> separated g (l ++ [a']).
Proof.
  intros Hfst. induction l as [|x [|y l] IH]; intros H; [exact I| |].
  - cbn in *. rewrite <- Hfst. exact H.
  - destruct H as [Hxy H]. split; [exact Hxy | apply IH, H].
Qed.

Lemma separated_snoc (g : Q) (l : list interval) (a b : interval) :
  separated g (l ++ [a]) -> g < fst b - snd a -> separated g ((l ++ [a]) ++ [b]).
Proof.
  intros H Hab. induction l as [|x [|y l] IH].
  - cbn. split; [exact Hab | exact I].
  - cbn in *. destruct H as [Hxa _]. repeat split; assumption.
  - destruct H as [Hxy H]. split; [exact Hxy | apply IH, H].
Qed.

Lemma merge_step_separated (g : Q) (st : list interval * interval) (seg : interval) :
  separated g (fst st ++ [snd st]) ->
  separated g (fst (merge_step g st seg) ++ [snd (merge_step g st seg)]).
Proof.
  destruct st as [front [ls le]], seg as [s e]. unfold merge_step. cbn [fst snd].
  intros H. destruct (Qle_bool (s - le) g) eqn:E; cbn [fst snd]; order_cases.
  - exact (separated_snoc_same_start g front (ls, le) (ls, py_max le e) eq_refl H).
  - apply separated_snoc; assumption.
Qed.

Lemma merge_fold_separated (g : Q) (rest : list interval) : forall st,
  separated g (fst st ++ [snd st]) ->
  separated g (fst (fold_left (merge_step g) rest st)
               ++ [snd (fold_left (merge_step g) rest st)]).
Proof.
  induction rest as [|seg rest IH]; intros st H; [exact H|].
  cbn [fold_left]. apply IH, merge_step_separated, H.
Qed.

Lemma merge_adjacent_separated (segments merged : list interval) (g : Q) :
  merge_adjacent segments g = Ok merged -> separated g merged.
Proof.
  destruct segments as [|first rest]; [discriminate|].
  unfold merge_adjacent.
  pose proof (merge_fold_separated g rest ([], first) I) as H.
  destruct (fold_left (merge_step g) rest ([], first)) as [front last].
  intros [= <-]. exact H.
Qed.

Lemma merge_step_far (g : Q) (front : list interval) (last seg : interval) :
  g < fst seg - snd last -> merge_step g (front, last) seg = (front ++ [last], seg).
Proof.
  destruct last as [ls le], seg as [s e]. cbn [fst snd]. intros H.
  unfold merge_step. apply Qle_bool_false in H. now rewrite H.
Qed.

Lemma merge_fold_on_separated (g : Q) (rest : list interval) : forall front last,
  separated g (last :: rest) ->
  fst (fold_left (merge_step g) rest (front, last))
    ++ [snd (fold_left (merge_step g) rest (front, last))]
  = front ++ last :: rest.
Proof.
  induction rest as [|seg rest IH]; intros front last H; [reflexivity|].
  cbn [fold_left]. destruct H as [Hgap H].
  rewrite (merge_step_far g front last seg Hgap), (IH (front ++ [last]) seg H).
  now rewrite <- app_assoc.
Qed.

Lemma merge_adjacent_on_separated (first : interval) (rest : list interval) (g : Q) :
  separated g (first :: rest) -> merge_adjacent (first :: rest) g = Ok (first :: rest).
Proof.
  intros H. unfold merge_adjacent.
  pose proof (merge_fold_on_separated g rest [] first H) as E.
  destruct (fold_left (merge_step g) rest ([], first)) as [front last].
  cbn [fst snd] in E. now rewrite E.
Qed.

(** X2. The merge pass is idempotent: after one pass every neighbouring pair
    lies more than the threshold apart, so a second pass at the same
    threshold returns its input. *)
Theorem merge_adjacent_idempotent (segments merged : list interval) (g : Q) :
  merge_adjacent segments g = Ok merged ->
  separated g merged /\ merge_adjacent merged g = Ok merged.
Proof.
  intros H. pose proof (merge_adjacent_separated _ _ _ H) as Hsep.
  split; [exact Hsep|].
  pose proof (merge_adjacent_nonempty _ _ _ H) as Hne.
  destruct merged as [|a l]; [congruence|].
  now apply merge_adjacent_on_separated.
Qed.

Lemma merge_adjacent_idempotent_witness :
  separated (60 # 1000) [(0, 2); (3, 4)] /\
  merge_adjacent [(0, 2); (3, 4)] (60 # 1000) = Ok [(0, 2); (3, 4)].
Proof.
  apply (merge_adjacent_idempotent [(0, 1); (1 + (4 # 100), 2); (3, 4)]).
  reflexivity.
Defined.

Lemma feed_fold_some (g : Q) (rest : list interval) : forall st,
  fold_left (feed g) rest (Some st) = Some (fold_left (merge_step g) rest st).
Proof.
  induction rest as [|seg rest IH]; intros st; [reflexivity|].
  cbn [fold_left feed]. apply IH.
Qed.

Lemma merge_adjacent_feed (segments : list interval) (g : Q) :
  merge_adjacent segments g =
    match fold_left (feed g) segments None with
    | None => Err IndexError
    | Some (front, last) => Ok (front ++ [last])
    end.
Proof.
  destruct segments as [|first rest]; [reflexivity|].
  cbn [fold_left feed]. rewrite feed_fold_some. reflexivity.
Qed.

Lemma feed_snoc (g : Q) (front : list interval) (last : interval) :
  fold_left (feed g) (front ++ [last]) None =
    feed g (fold_left (feed g) front None) last.
Proof. now rewrite fold_left_app. Qed.

Lemma py_max_ge_l (a b c : Q) : c <= a -> c <= py_max a b.
Proof. intros H. eapply Qle_trans; [exact H | apply py_max_ub_l]. Qed.

Lemma merge_step_cases (g : Q) (st : list interval * interval) (seg : interval) :
  (fst seg - snd (snd st) <= g /\
   merge_step g st seg = (fst st, (fst (snd st), py_max (snd (snd st)) (snd seg)))) \/
  (g < fst seg - snd (snd st) /\
   merge_step g st seg = (fst st ++ [snd st], seg)).
Proof.
  destruct st as [front [ls le]], seg as [s e]. cbn [fst snd]. unfold merge_step.
  destruct (Qle_bool (s - le) g) eqn:E; order_cases; [left | right]; auto.
Qed.

(** Growing the end of the last interval of a pass at [g1] commutes with
    feeding that interval to a pass at [g2 >= g1]. *)
Lemma feed_grown_last (g1 g2 : Q) (F : option (list interval * interval))
    (last seg : interval) (D : list interval * interval) :
  g1 <= g2 -> fst seg - snd last <= g1 ->
  feed g2 F last = Some D ->
  feed g2 F (fst last, py_max (snd last) (snd seg)) = Some (merge_step g2 D seg).
Proof.
  destruct last as [ls le], seg as [s e]. cbn [fst snd].
  intros Hg Hs. destruct F as [[Ff [Fs Fe]]|]; cbn [feed merge_step].
  - destruct (Qle_bool (ls - Fe) g2) eqn:E; intros [= <-]; cbn [merge_step].
    + pose proof (py_max_ub_r Fe le) as Hub.
      replace (Qle_bool (s - py_max Fe le) g2) with true
        by (symmetry; apply Qle_bool_iff; lra).
      now rewrite py_max_assoc.
    + replace (Qle_bool (s - le) g2) with true
        by (symmetry; apply Qle_bool_iff; lra).
      reflexivity.
  - intros [= <-]. cbn [merge_step].
    replace (Qle_bool (s - le) g2) with true
      by (symmetry; apply Qle_bool_iff; lra).
    reflexivity.
Qed.

Lemma merge_fold_compose (g1 g2 : Q) (rest : list interval) :
  g1 <= g2 ->
  forall (st : list interval * interval) (D : list interval * interval),
    fold_left (feed g2) (fst st ++ [snd st]) None = Some D ->
    fold_left (feed g2)
      (fst (fold_left (merge_step g1) rest st)
       ++ [snd (fold_left (merge_step g1) rest st)]) None
    = Some (fold_left (merge_step g2) rest D).
Proof.
  intros Hg. induction rest as [|seg rest IH]; intros st D HD; [exact HD|].
  cbn [fold_left]. apply IH.
  destruct (merge_step_cases g1 st seg) as [[Hnear ->]|[Hfar ->]]; cbn [fst snd].
  - rewrite feed_snoc in *. now apply (feed_grown_last g1 g2).
  - rewrite feed_snoc, HD. reflexivity.
Qed.

Lemma merge_adjacent_compose (segments merged : list interval) (g1 g2 : Q) :
  g1 <= g2 -> merge_adjacent segments g1 = Ok merged ->
  merge_adjacent merged g2 = merge_adjacent segments g2.
Proof.
  intros Hg. destruct segments as [|first rest]; [discriminate|].
  unfold merge_adjacent at 1.
  pose proof (merge_fold_compose g1 g2 rest Hg ([], first) ([], first) eq_refl) as H.
  destruct (fold_left (merge_step g1) rest ([], first)) as [front last].
  intros [= <-]. cbn [fst snd] in H.
  rewrite merge_adjacent_feed, H. reflexivity.
Qed.

(** X3. Passes compose: merging the result of a pass at threshold g1 again
    at a threshold g2 >= g1 gives exactly what one pass at g2 gives on the
    original segments. *)
Theorem merge_adjacent_cumulative (segments merged : list interval) (g1 g2 : Q) :
  g1 <= g2 -> merge_adjacent segments g1 = Ok merged ->
  merge_adjacent merged g2 = merge_adjacent segments g2.
Proof.
  intros Hg. destruct segments as [|first rest]; [discriminate|].
  unfold merge_adjacent at 1.
  pose proof (merge_fold_compose g1 g2 rest Hg ([], first) ([], first) eq_refl) as H.
  destruct (fold_left (merge_step g1) rest ([], first)) as [front last].
  intros [= <-]. cbn [fst snd] in H.
  rewrite merge_adjacent_feed, H. reflexivity.
Qed.

Lemma merge_adjacent_cumulative_witness :
  let segments := [(0, 1); (1 + (4 # 100), 2); (2 + (1 # 10), 3); (4, 5)] in
  merge_adjacent [(0, 2); (2 + (1 # 10), 3); (4, 5)] (15 # 100)
  = merge_adjacent segments (15 # 100).
Proof.
  intros segments.
  apply (merge_adjacent_cumulative segments _ (6 # 100) (15 # 100)).
  - vm_compute. intro; discriminate.
  - reflexivity.
Defined.

Lemma sorted_by_head_le (g : Q) (gaps : list Q) :
  sorted_by (fun x => x) (g :: gaps) -> Forall (fun g' => g <= g') gaps.
Proof.
  revert g. induction gaps as [|h gaps IH]; intros g H; [constructor|].
  destruct H as [Hgh H]. constructor; [exact Hgh|].
  eapply Forall_impl; [|exact (IH h H)]. cbn. intros a Ha. lra.
Qed.

Lemma merge_loop_direct (target : Z) (original : list interval) (gaps : list Q) :
  sorted_by (fun x => x) gaps ->
  forall best,
    (forall g, In g gaps -> merge_adjacent best g = merge_adjacent original g) ->
    merge_loop target gaps best = direct_loop target gaps original best.
Proof.
  induction gaps as [|g gaps IH]; intros Hs best Hbest; [reflexivity|].
  cbn [merge_loop direct_loop].
  rewrite (Hbest g (or_introl eq_refl)).
  destruct (merge_adjacent original g) as [merged|e] eqn:E; cbn [bind]; [|reflexivity].
  destruct (len merged <=? target)%Z; [reflexivity|].
  apply IH; [exact (sorted_by_tail _ _ _ Hs)|].
  intros g' Hin.
  apply (merge_adjacent_compose original merged g g'); [|exact E].
  exact (proj1 (Forall_forall _ _) (sorted_by_head_le g gaps Hs) g' Hin).
Qed.

Lemma merge_gaps_ascending : sorted_by (fun x => x) MERGE_GAPS_SECONDS.
Proof. vm_compute. repeat split; intro; discriminate. Qed.

(** X4. Although every pass of the fitter's loop merges the result of the
    pass before it, the loop over MERGE_GAPS_SECONDS computes what the
    specification describes: every pass taken over the original segments,
    stopping at the first threshold whose pass gives a count <= target. *)
Theorem merge_loop_passes_over_original (target : Z) (segments : list interval) :
  merge_loop target MERGE_GAPS_SECONDS segments =
    direct_loop target MERGE_GAPS_SECONDS segments segments.
Proof.
  apply merge_loop_direct; [exact merge_gaps_ascending | reflexivity].
Qed.

(** ** The fitter on arbitrary input *)

Lemma sorted_by_start_sorted (l : list interval) : sorted_by fst l -> start_sorted l.
Proof.
  induction l as [|a [|b l] IH]; cbn; auto.
  intros [H Hl]. split; [exact H | apply IH, Hl].
Qed.

Lemma start_sorted_app_l (l1 l2 : list interval) :
  start_sorted (l1 ++ l2) -> start_sorted l1.
Proof.
  induction l1 as [|a [|b l1] IH]; cbn; auto.
  intros [Hab Hl]. split; [exact Hab | apply IH, Hl].
Qed.

Lemma start_sorted_app_r (l1 l2 : list interval) :
  start_sorted (l1 ++ l2) -> start_sorted l2.
Proof.
  induction l1 as [|a l1 IH]; cbn [app]; auto.
  intros H. apply IH. exact (start_sorted_tail _ _ H).
Qed.

Lemma start_sorted_reach (a b : interval) (l tl : list interval) :
  start_sorted (a :: l ++ b :: tl) -> fst a <= fst b.
Proof.
  revert a. induction l as [|c l IH]; intros a H.
  - destruct H as [H _]. exact H.
  - destruct H as [Hac H]. specialize (IH c H). lra.
Qed.

Lemma start_sorted_hulls (runs : list seg_run) :
  start_sorted (flat runs) -> start_sorted (List.map hull runs).
Proof.
  induction runs as [|r runs IH]; intros H; [exact I|].
  change (flat (r :: runs)) with (run_items r ++ flat runs) in H.
  assert (Hr := IH (start_sorted_app_r _ _ H)).
  destruct runs as [|r2 runs]; [exact I|].
  change (List.map hull (r :: r2 :: runs))
    with (hull r :: hull r2 :: List.map hull runs).
  change (List.map hull (r2 :: runs)) with (hull r2 :: List.map hull runs) in Hr.
  split; [|exact Hr].
  rewrite !hull_fst.
  change (flat (r2 :: runs)) with ((fst r2 :: snd r2) ++ flat runs) in H.
  unfold run_items in H. cbn [app] in H.
  exact (start_sorted_reach (fst r) (fst r2) (snd r) _ H).
Qed.

Lemma slice_to_firstn {A} (l : list A) (n : Z) :
  exists k, slice_to l n = firstn k l /\ ((0 <= n)%Z -> k = Z.to_nat n).
Proof.
  unfold slice_to. destruct (Z.ltb_spec n 0).
  - eexists. split; [reflexivity | lia].
  - eexists. split; [reflexivity | auto].
Qed.

Lemma fit_ok_inv (target : Z) (segments out : list interval) :
  fit_segments_to_target target segments = Ok out ->
  ((0 <= target)%Z -> len out = target) /\
  exists runs dropped,
    flat runs ++ dropped = py_sorted fst segments /\ out = List.map hull runs.
Proof.
  destruct segments as [|s l]; [discriminate|].
  unfold fit_segments_to_target. cbv zeta.
  set (ordered := py_sorted fst (s :: l)).
  assert (Hne : List.map (fun x : interval => (x, @nil interval)) ordered <> []).
  { assert (Hl : length ordered = length (s :: l)) by apply py_sorted_length.
    destruct ordered; [discriminate Hl | discriminate]. }
  destruct (Z.eqb_spec (len ordered) target) as [Heq|Hneq].
  { intros [= <-]. split; [auto|].
    exists (List.map (fun x => (x, [])) ordered), [].
    now rewrite app_nil_r, flat_singletons, hull_singletons. }
  destruct (Z.ltb_spec (len ordered) target) as [Hlt|Hge]; [discriminate|].
  destruct (merge_loop_runs target MERGE_GAPS_SECONDS _ Hne)
    as (runs & Hloop & Hflat & _).
  rewrite hull_singletons in Hloop. rewrite flat_singletons in Hflat.
  rewrite Hloop. cbn [bind]. rewrite Z.gtb_ltb.
  destruct (Z.ltb_spec target (len (List.map hull runs))) as [Hmore|Hle].
  - destruct (slice_to_firstn (List.map hull runs) target) as (k & -> & Hk).
    rewrite firstn_map.
    destruct (Z.ltb_spec (len (List.map hull (firstn k runs))) target) as [|Hok];
      [discriminate|].
    intros [= <-]. split.
    + intros Hpos. rewrite (Hk Hpos) in *.
      rewrite len_map in *. unfold len in *. rewrite length_firstn in *. lia.
    + destruct (flat_firstn k runs) as [dropped Hd].
      exists (firstn k runs), dropped. split; [congruence | reflexivity].
  - destruct (Z.ltb_spec (len (List.map hull runs)) target) as [|Hok]; [discriminate|].
    intros [= <-]. split; [lia|].
    exists runs, []. rewrite app_nil_r. auto.
Qed.

(** X5. Whatever the input (unsorted, overlapping, of any length) and
    whatever target >= 0, a sequence the fitter returns has exactly target
    intervals; every other outcome is an exception. *)
Theorem fit_returns_exact_count (target : Z) (segments out : list interval) :
  (0 <= target)%Z ->
  fit_segments_to_target target segments = Ok out ->
  len out = target.
Proof.
  intros Hpos H. exact (proj1 (fit_ok_inv target segments out H) Hpos).
Qed.

(** An unsorted, overlapping input. *)
Lemma fit_returns_exact_count_witness :
  len [(0, 3); (5, 6)] = 2%Z.
Proof.
  apply (fit_returns_exact_count 2 [(5, 6); (1, 3); (0, 2); (9, 10)]).
  - lia.
  - reflexivity.
Defined.

(** For a negative target the slice [best[:target]] only drops entries from
    the end, and the count returned is not the target. *)
Example fit_negative_target :
  fit_segments_to_target (-1) [(0, 1); (2, 3); (4, 5)] = Ok [(0, 1); (2, 3)].
Proof. reflexivity. Qed.

(** X6. Whatever the input, a sequence the fitter returns is sorted by
    start, and each of its intervals is the union of a run of consecutive
    segments of the input as sorted by start, in order, the runs covering
    that sorted input up to a dropped tail. *)
Theorem fit_returns_sorted_unions (target : Z) (segments out : list interval) :
  fit_segments_to_target target segments = Ok out ->
  start_sorted out /\
  exists runs dropped,
    flat runs ++ dropped = py_sorted fst segments /\ out = List.map hull runs.
Proof.
  intros H. destruct (fit_ok_inv target segments out H) as (_ & runs & dropped & Hf & ->).
  split; [|exists runs, dropped; auto].
  apply start_sorted_hulls, (start_sorted_app_l _ dropped).
  rewrite Hf. apply sorted_by_start_sorted, py_sorted_sorted.
Qed.

Lemma fit_returns_sorted_unions_witness :
  start_sorted [(0, 3); (5, 6)] /\
  exists runs dropped,
    flat runs ++ dropped = py_sorted fst [(5, 6); (1, 3); (0, 2); (9, 10)] /\
    [(0, 3); (5, 6)] = List.map hull runs.
Proof.
  apply (fit_returns_sorted_unions 2 [(5, 6); (1, 3); (0, 2); (9, 10)]).
  reflexivity.
Defined.

Lemma separated_weaken (g G : Q) (l : list interval) :
  g <= G -> separated G l -> separated g l.
Proof.
  intros Hg. induction l as [|a [|b l] IH]; cbn; auto.
  intros [H Hl]. split; [lra | apply IH, Hl].
Qed.

Lemma merge_loop_on_separated (target : Z) (G : Q) (first : interval)
    (rest : list interval) (gaps : list Q) :
  Forall (fun g => g <= G) gaps ->
  separated G (first :: rest) -> (target < len (first :: rest))%Z ->
  merge_loop target gaps (first :: rest) = Ok (first :: rest).
Proof.
  intros Hgaps Hsep Hlen. induction gaps as [|g gaps IH]; [reflexivity|].
  inversion Hgaps as [|? ? Hg Hrest]; subst.
  cbn [merge_loop].
  rewrite (merge_adjacent_on_separated first rest g (separated_weaken g G _ Hg Hsep)).
  cbn [bind].
  destruct (Z.leb_spec (len (first :: rest)) target) as [|_]; [lia|].
  apply IH, Hrest.
Qed.

Lemma merge_gaps_at_most_300ms : Forall (fun g => g <= 300 # 1000) MERGE_GAPS_SECONDS.
Proof. vm_compute. repeat constructor; intro; discriminate. Qed.

(** X7. The truncation fallback loses segments silently: on an input
    sorted by start whose neighbours all lie more than 300 ms apart, no
    threshold merges anything, and for 1 <= target <= M the fitter returns
    the first target segments unchanged and drops the other M - target
    without an error. *)
Theorem fit_truncates_wide_gaps (target : Z) (segments : list interval) :
  start_sorted segments -> separated (300 # 1000) segments ->
  (1 <= target <= len segments)%Z ->
  fit_segments_to_target target segments = Ok (firstn (Z.to_nat target) segments).
Proof.
  intros Hsorted Hsep [Hpos Hle].
  destruct segments as [|s l]; [unfold len in Hle; cbn in Hle; lia|].
  rewrite (fit_on_start_sorted target s l Hsorted).
  destruct (Z.eqb_spec (len (s :: l)) target) as [Heq|Hneq].
  { rewrite <- Heq. unfold len. now rewrite Nat2Z.id, firstn_all. }
  destruct (Z.ltb_spec (len (s :: l)) target) as [|_]; [lia|].
  rewrite (merge_loop_on_separated target (300 # 1000) s l MERGE_GAPS_SECONDS
             merge_gaps_at_most_300ms Hsep) by lia.
  cbn [bind]. cbv zeta. rewrite Z.gtb_ltb.
  destruct (Z.ltb_spec target (len (s :: l))) as [_|]; [|lia].
  unfold slice_to. destruct (Z.ltb_spec target 0) as [|_]; [lia|].
  destruct (Z.ltb_spec (len (firstn (Z.to_nat target) (s :: l))) target) as [Hshort|_];
    [|reflexivity].
  unfold len in *. rewrite length_firstn in Hshort. lia.
Qed.

Lemma fit_truncates_wide_gaps_witness :
  fit_segments_to_target 2 [(0, 1); (2, 3); (4, 5); (6, 7)] = Ok [(0, 1); (2, 3)].
Proof.
  apply (fit_truncates_wide_gaps 2 [(0, 1); (2, 3); (4, 5); (6, 7)]).
  - vm_compute. repeat split; intro; discriminate.
  - vm_compute. repeat split.
  - vm_compute. split; intro; discriminate.
Defined.

(** ** The pairer on arbitrary logs *)

Lemma insert_by_count {A} (key : A -> Q) (P : A -> bool) (x : A) (l : list A) :
  length (List.filter P (insert_by key x l)) = length (List.filter P (x :: l)).
Proof.
  induction l as [|y l IH]; [reflexivity|].
  cbn [insert_by]. destruct (Qle_bool (key x) (key y)); [reflexivity|].
  cbn [List.filter] in *. destruct (P y), (P x); cbn [length] in *; lia.
Qed.

Lemma py_sorted_count {A} (key : A -> Q) (P : A -> bool) (l : list A) :
  length (List.filter P (py_sorted key l)) = length (List.filter P l).
Proof.
  induction l as [|x l IH]; [reflexivity|].
  cbn [py_sorted fold_right]. fold (py_sorted key l).
  rewrite insert_by_count. cbn [List.filter]. destruct (P x); cbn [length]; lia.
Qed.

Lemma sorted_events_ends (starts ends : list Q) :
  length (List.filter is_end (sorted_events starts ends)) = length ends.
Proof.
  unfold sorted_events. rewrite py_sorted_count, filter_app, length_app.
  assert (Hs : @List.filter (kind * Q) is_end (List.map (fun v => (KStart, v)) starts) = []).
  { induction starts as [|v l IH]; [reflexivity | exact IH]. }
  assert (He : @List.filter (kind * Q) is_end (List.map (fun v => (KEnd, v)) ends)
               = List.map (fun v => (KEnd, v)) ends).
  { induction ends as [|v l IH]; [reflexivity|]. cbn [List.map List.filter is_end fst].
    now rewrite IH. }
  rewrite Hs, He, length_map. reflexivity.
Qed.

Lemma pair_fold_count (evs : list event) : forall st,
  length (fst (fold_left pair_step evs st))
  = (length (fst st) + length (List.filter is_end evs))%nat.
Proof.
  induction evs as [|[k ts] evs IH]; intros [silences current]; cbn [fold_left].
  - cbn. lia.
  - rewrite IH. destruct k; cbn [pair_step List.filter is_end fst].
    + destruct current; cbn [fst]; lia.
    + cbn [fst length]. rewrite length_app. cbn [length]. lia.
Qed.

(** X8. The pairer never loses an END and never invents more than one
    interval: it returns one interval per END timestamp, plus at most one
    for a START left open at the end of the log. *)
Theorem pair_silences_count (starts ends : list Q) (duration : Q) :
  (length ends <= length (pair_silences starts ends duration) <= S (length ends))%nat.
Proof.
  unfold pair_silences.
  pose proof (pair_fold_count (sorted_events starts ends) ([], None)) as H.
  rewrite sorted_events_ends in H.
  destruct (fold_left pair_step (sorted_events starts ends) ([], None))
    as [silences [c|]]; cbn [fst length] in H.
  - rewrite length_app. cbn [length]. lia.
  - lia.
Qed.

Lemma pair_fold_right_way (duration : Q) (evs : list event) :
  forall (silences : list interval) (current : option Q),
    sorted_by snd evs -> Forall (event_in_range duration) evs ->
    Forall (fun i => fst i <= snd i) silences ->
    match current with
    | Some c => c <= duration /\ match evs with ev :: _ => c <= snd ev | [] => True end
    | None => True
    end ->
    Forall (fun i => fst i <= snd i) (fst (fold_left pair_step evs (silences, current))) /\
    match snd (fold_left pair_step evs (silences, current)) with
    | Some c => c <= duration
    | None => True
    end.
Proof.
  induction evs as [|[k ts] evs IH]; intros silences current Hs Hr Hw Hc.
  - cbn [fold_left fst snd]. split; [exact Hw|]. destruct current; tauto.
  - cbn [fold_left]. inversion Hr as [|? ? Hev Hr']; subst.
    pose proof (sorted_by_tail _ _ _ Hs) as Hs'.
    assert (Hnext : match evs with ev :: _ => ts <= snd ev | [] => True end).
    { destruct evs as [|ev evs]; [exact I|]. destruct Hs as [H _]. exact H. }
    destruct k; cbn [pair_step].
    + destruct current as [c|]; apply IH; try assumption.
      * destruct Hc as [Hcd Hct]. cbn [snd] in Hct. split; [exact Hcd|].
        destruct evs as [|ev evs]; [exact I | lra].
      * split; [exact Hev | exact Hnext].
    + apply IH; try assumption; [|exact I].
      apply Forall_app. split; [exact Hw|]. constructor; [|constructor].
      destruct current as [c|]; cbn [fst snd].
      * destruct Hc as [_ Hct]. exact Hct.
      * exact Hev.
Qed.

(** X9. However malformed the log (dangling ENDs, repeated or unclosed
    STARTs), when no END timestamp is negative and no START timestamp
    exceeds the duration, every interval the pairer returns has
    start <= end. *)
Theorem pair_silences_right_way_round (starts ends : list Q) (duration : Q) :
  Forall (fun v => v <= duration) starts -> Forall (fun v => 0 <= v) ends ->
  Forall (fun i => fst i <= snd i) (pair_silences starts ends duration).
Proof.
  intros Hstarts Hends. unfold pair_silences.
  assert (Hr : Forall (event_in_range duration) (sorted_events starts ends)).
  { apply Forall_forall. intros ev Hin. apply py_sorted_In, in_app_or in Hin.
    destruct Hin as [Hin|Hin]; apply in_map_iff in Hin; destruct Hin as (v & <- & Hin).
    - exact (proj1 (Forall_forall _ _) Hstarts _ Hin).
    - exact (proj1 (Forall_forall _ _) Hends _ Hin). }
  pose proof (pair_fold_right_way duration (sorted_events starts ends) [] None
                (py_sorted_sorted snd _) Hr (Forall_nil _) I) as [Hw Hc].
  destruct (fold_left pair_step (sorted_events starts ends) ([], None))
    as [silences [c|]]; cbn [fst snd] in *; [|exact Hw].
  apply Forall_app. split; [exact Hw|]. constructor; [exact Hc | constructor].
Qed.

(** A log with two dangling ENDs, a repeated START and an unclosed START. *)
Lemma pair_silences_right_way_round_witness :
  Forall (fun i => fst i <= snd i) (pair_silences [3; 3 + (1 # 2); 6] [1; 2; 4] 10).
Proof.
  apply (pair_silences_right_way_round [3; 3 + (1 # 2); 6] [1; 2; 4] 10).
  - repeat constructor; intro; discriminate.
  - repeat constructor; intro; discriminate.
Defined.

(** ** The inverter *)

Lemma speech_fold_long (silences : list interval) :
  forall (speech : list interval) (previous_end : Q),
  Forall (fun i => EPSILON < snd i - fst i) speech ->
  Forall (fun i => EPSILON < snd i - fst i)
         (fst (fold_left speech_step silences (speech, previous_end))).
Proof.
  induction silences as [|[s e] silences IH]; intros speech pe H; [exact H|].
  cbn [fold_left speech_step]. apply IH.
  destruct (Qgtb (s - pe) EPSILON) eqn:E; [|exact H].
  apply Forall_app. split; [exact H|]. constructor; [|constructor].
  order_cases. exact E.
Qed.

(** X10. Whatever the silences, every speech segment the inverter returns
    is longer than 1 ms. *)
Theorem silences_to_speech_segments_long (silences : list interval) (duration : Q) :
  Forall (fun i => EPSILON < snd i - fst i) (silences_to_speech silences duration).
Proof.
  unfold silences_to_speech.
  pose proof (speech_fold_long silences [] 0 (Forall_nil _)) as H.
  destruct (fold_left speech_step silences ([], 0)) as [speech pe]. cbn [fst] in H.
  destruct (Qgtb (duration - pe) EPSILON) eqn:E; [|exact H].
  apply Forall_app. split; [exact H|]. constructor; [|constructor].
  order_cases. exact E.
Qed.

Lemma speech_fold_ordered (silences : list interval) :
  forall (speech : list interval) (previous_end : Q),
    ordered_seq silences -> Forall (fun i => fst i <= snd i) silences ->
    ordered_seq speech -> all_le previous_end speech ->
    (speech = [] \/
     match silences with x :: _ => previous_end <= fst x | [] => True end) ->
    ordered_seq (fst (fold_left speech_step silences (speech, previous_end))) /\
    all_le (snd (fold_left speech_step silences (speech, previous_end)))
           (fst (fold_left speech_step silences (speech, previous_end))).
Proof.
  induction silences as [|[s e] silences IH]; intros speech pe Ho Hw Hs Hle Hhead.
  - cbn [fold_left fst snd]. split; assumption.
  - cbn [fold_left speech_step].
    inversion Hw as [|? ? Hse Hw']; subst. cbn [fst snd] in Hse.
    pose proof (ordered_seq_tail _ _ Ho) as Ho'.
    assert (Hnext : match silences with x :: _ => e <= fst x | [] => True end).
    { destruct silences as [|x silences]; [exact I|].
      destruct Ho as [[_ H] _]. exact H. }
    destruct (Qgtb (s - pe) EPSILON) eqn:E; order_cases; unfold EPSILON in *.
    + apply IH; try assumption.
      * now apply ordered_seq_snoc.
      * apply all_le_snoc; [apply (all_le_mono pe e); [lra | exact Hle] | lra | lra].
      * now right.
    + apply IH; try assumption; [|now right].
      destruct Hhead as [->|Hps]; [constructor|].
      cbn [fst] in Hps. apply (all_le_mono pe e); [lra | exact Hle].
Qed.

(** X11. On silences that are ordered, non-overlapping and each the right
    way round (start <= end), the inverter returns speech segments that are
    again ordered by start and non-overlapping, whatever the duration. *)
Theorem silences_to_speech_ordered (silences : list interval) (duration : Q) :
  ordered_seq silences -> Forall (fun i => fst i <= snd i) silences ->
  ordered_seq (silences_to_speech silences duration).
Proof.
  intros Ho Hw. unfold silences_to_speech.
  pose proof (speech_fold_ordered silences [] 0 Ho Hw I (Forall_nil _)
                (or_introl eq_refl)) as [Hs Hle].
  destruct (fold_left speech_step silences ([], 0)) as [speech pe].
  cbn [fst snd] in *.
  destruct (Qgtb (duration - pe) EPSILON); [|exact Hs].
  now apply ordered_seq_snoc.
Qed.

Lemma silences_to_speech_ordered_witness :
  ordered_seq (silences_to_speech [(2, 2 + (1 # 10)); (6, 6 + (2 # 10))] 10).
Proof.
  apply (silences_to_speech_ordered [(2, 2 + (1 # 10)); (6, 6 + (2 # 10))] 10).
  - vm_compute. repeat split; intro; discriminate.
  - repeat constructor; intro; discriminate.
Defined.

(** ** Padding keeps the order of starts *)

Lemma start_sorted_cons (a : interval) (l : list interval) :
  start_sorted (a :: l) <-> Forall (fun b => fst a <= fst b) l /\ start_sorted l.
Proof.
  revert a. induction l as [|b l IH]; intros a.
  - cbn. split; [intros _; split; [constructor | exact I] | tauto].
  - split.
    + intros [Hab H]. split; [|exact H].
      constructor; [exact Hab|].
      apply IH in H. destruct H as [H _].
      eapply Forall_impl; [|exact H]. cbn. intros c Hc. lra.
    + intros [Hall H]. inversion Hall; subst. split; assumption.
Qed.

Lemma spec_padding_start_sorted (pad duration : Q) (segments : list interval) :
  start_sorted segments -> start_sorted (spec_padding pad segments duration).
Proof.
  induction segments as [|a l IH]; intros H; [exact I|].
  apply start_sorted_cons in H. destruct H as [Hall H]. specialize (IH H).
  unfold spec_padding in *. cbn [List.map List.filter].
  destruct (long_enough (padded_window pad duration a)); [|exact IH].
  apply start_sorted_cons. split; [|exact IH].
  apply Forall_forall. intros w Hin.
  apply filter_In in Hin. destruct Hin as [Hin _].
  apply in_map_iff in Hin. destruct Hin as (b & <- & Hb).
  pose proof (proj1 (Forall_forall _ _) Hall b Hb) as Hab.
  unfold padded_window. cbn [fst].
  cbn beta in Hab. apply Q.max_le_compat_l. lra.
Qed.

(** X12. Padding keeps the order: on segments sorted by start the padding
    applier returns segments sorted by start, for every pad and duration
    (neighbours may overlap afterwards, their starts never swap). *)
Theorem apply_padding_start_sorted (pad duration : Q) (segments : list interval) :
  start_sorted segments -> start_sorted (apply_padding pad segments duration).
Proof.
  intros H. unfold apply_padding. rewrite padding_fold_spec.
  now apply spec_padding_start_sorted.
Qed.

Lemma apply_padding_start_sorted_witness :
  start_sorted (apply_padding (7 # 100) [(0, 1); (1 + (1 # 10), 2); (2 + (1 # 10), 3)] 3).
Proof.
  apply (apply_padding_start_sorted (7 # 100) 3).
  vm_compute. repeat split; intro; discriminate.
Defined.

(** ** The parser yields non-negative numbers *)

Lemma digit_of_nonneg (c : ascii) (d : Z) : digit_of c = Some d -> (0 <= d)%Z.
Proof.
  unfold digit_of. destruct ((48 <=? code c) && (code c <=? 57))%nat; [|discriminate].
  intros [= <-]. lia.
Qed.

Lemma read_digits_nonneg (s : string) : forall acc count,
  (0 <= acc)%Z -> (0 <= fst (fst (read_digits s acc count)))%Z.
Proof.
  induction s as [|c s IH]; intros acc count Hacc; [exact Hacc|].
  cbn [read_digits]. destruct (digit_of c) as [d|] eqn:E; [|exact Hacc].
  apply IH. pose proof (digit_of_nonneg c d E). lia.
Qed.

Lemma py_float_nonneg (token : string) (v : Q) : py_float token = Ok v -> 0 <= v.
Proof.
  unfold py_float.
  pose proof (read_digits_nonneg token 0%Z 0%nat (Z.le_refl 0)) as Hip.
  destruct (read_digits token 0%Z 0%nat) as [[ip ni] rest]. cbn [fst] in Hip.
  destruct rest as [|c rest'].
  - destruct (ni =? 0)%nat; [discriminate|]. intros [= <-].
    change (inject_Z 0 <= inject_Z ip). rewrite <- Zle_Qle. exact Hip.
  - destruct (Ascii.eqb c "."); [|discriminate].
    pose proof (read_digits_nonneg rest' ip 0%nat Hip) as Hfp.
    destruct (read_digits rest' ip 0%nat) as [[fp nf] rest'']. cbn [fst] in Hfp.
    destruct rest''; [|discriminate].
    destruct (ni + nf =? 0)%nat; [discriminate|]. intros [= <-].
    apply Qle_shift_div_l.
    + change (inject_Z 0 < inject_Z (10 ^ Z.of_nat nf)). rewrite <- Zlt_Qlt.
      apply Z.pow_pos_nonneg; lia.
    + rewrite Qmult_0_l. change (inject_Z 0 <= inject_Z fp).
      rewrite <- Zle_Qle. exact Hfp.
Qed.

Lemma captured_nonneg (pattern : string -> option string) (lines : list string) :
  Forall (fun v => 0 <= v) (captured pattern lines).
Proof.
  unfold captured. induction lines as [|line lines IH]; [constructor|].
  cbn [flat_map]. apply Forall_app. split; [|exact IH].
  destruct (pattern line) as [token|]; [|constructor].
  destruct (py_float token) as [v|e] eqn:E; [|constructor].
  constructor; [exact (py_float_nonneg token v E) | constructor].
Qed.

(** X13. Whatever the log, the timestamps the parser returns are never
    negative: both patterns capture digits and dots only. *)
Theorem parse_silence_log_nonneg (log : string) (starts ends : list Q) :
  parse_silence_log log = Ok (starts, ends) ->
  Forall (fun v => 0 <= v) starts /\ Forall (fun v => 0 <= v) ends.
Proof.
  unfold parse_silence_log. rewrite parse_lines_spec.
  destruct (forallb line_parses (splitlines log)); [|discriminate].
  intros [= <- <-]. split; apply captured_nonneg.
Qed.

Lemma parse_silence_log_nonneg_witness :
  Forall (fun v => 0 <= v) [125 # 100] /\ Forall (fun v => 0 <= v) [25 # 10].
Proof.
  apply (parse_silence_log_nonneg
           ("silence_start: 1.25" ++ String "010" "silence_end: 2.5")%string).
  reflexivity.
Defined.

(** A negative number in the log is not captured at all: the sign stops the
    match, and the line is treated like any line without a match. *)
Example parse_negative_start :
  parse_silence_log
    ("silence_start: -0.0013" ++ String "010" "silence_end: 2.5")%string
  = Ok ([], [25 # 10]).
Proof. reflexivity. Qed.

(** ** Detection as a whole *)

Lemma spec_padding_long (pad duration : Q) (segments : list interval) :
  Forall (fun w => MIN_SEGMENT_DURATION <= snd w - fst w)
         (spec_padding pad segments duration).
Proof.
  apply Forall_forall. intros w Hin.
  unfold spec_padding in Hin. apply filter_In in Hin. destruct Hin as [_ Hlong].
  unfold long_enough in Hlong. now apply Qle_bool_iff in Hlong.
Qed.

(** X14. When detection returns segments at all, the command succeeded,
    there is at least one segment, and every segment lies within
    [0, duration] and is at least 50 ms long; an empty result is never
    returned, it is raised as "No speech regions were detected". *)
Theorem detect_segments_shape (proc : completed) (pad duration : Q)
    (padded : list interval) :
  detect_segments proc pad duration = Segments padded ->
  returncode proc = 0%Z /\ padded <> [] /\
  Forall (fun w => 0 <= fst w /\ snd w <= duration /\
                   MIN_SEGMENT_DURATION <= snd w - fst w) padded.
Proof.
  unfold detect_segments.
  destruct (Z.eqb_spec (returncode proc) 0) as [Hrc|_]; [|discriminate].
  destruct (parse_silence_log (stderr proc)) as [[starts ends]|e]; [|discriminate].
  cbv zeta.
  set (speech := silences_to_speech (pair_silences starts ends duration) duration).
  pose proof (spec_padding_within pad duration speech) as Hin.
  pose proof (spec_padding_long pad duration speech) as Hlong.
  unfold apply_padding. rewrite padding_fold_spec. cbn [app].
  destruct (spec_padding pad speech duration) as [|w ws]; [discriminate|].
  intros [= <-]. split; [exact Hrc|]. split; [discriminate|].
  apply Forall_forall. intros x Hx.
  pose proof (proj1 (Forall_forall _ _) Hin x Hx) as [H1 H2].
  pose proof (proj1 (Forall_forall _ _) Hlong x Hx) as H3.
  repeat split; assumption.
Qed.

Lemma detect_segments_shape_witness :
  let proc := {| returncode := 0; stdout := "";
                 stderr := ("silence_start: 2" ++ String "010" "silence_end: 2.5")%string |} in
  returncode proc = 0%Z /\ [(0, 2 + (7 # 100)); ((25 # 10) - (7 # 100), 10)] <> [] /\
  Forall (fun w => 0 <= fst w /\ snd w <= 10 /\
                   MIN_SEGMENT_DURATION <= snd w - fst w)
         [(0, 2 + (7 # 100)); ((25 # 10) - (7 # 100), 10)].
Proof.
  intros proc.
  apply (detect_segments_shape proc (7 # 100) 10).
  reflexivity.
Defined.

Lemma no_match_lines (lines : list string) :
  forallb no_match lines = true ->
  forallb line_parses lines = true /\
  captured SILENCE_START_RE lines = [] /\ captured SILENCE_END_RE lines = [].
Proof.
  induction lines as [|line lines IH]; [auto|].
  cbn [forallb]. intros H. apply andb_prop in H. destruct H as [Hline H].
  destruct (IH H) as (Hp & Hs & He).
  unfold no_match in Hline. unfold line_parses, captured in *.
  cbn [flat_map].
  destruct (SILENCE_START_RE line); [discriminate|].
  destruct (SILENCE_END_RE line); [discriminate|].
  cbn. rewrite Hp, Hs, He. auto.
Qed.

(** X15. A recording in which the detector reports no silence gives one
    clip: when the command succeeds, no line of its log matches either
    pattern, the pad is not negative and the recording lasts at least
    50 ms, detection returns the single segment (0, duration); the fitter
    then returns it for a target of 1 and raises "Detected only 1 segments"
    for any larger target. *)
Theorem detect_silence_free (proc : completed) (pad duration : Q) :
  returncode proc = 0%Z ->
  forallb no_match (splitlines (stderr proc)) = true ->
  0 <= pad -> MIN_SEGMENT_DURATION <= duration ->
  detect_segments proc pad duration = Segments [(0, duration)] /\
  forall count, (1 <= count)%Z ->
    fit_segments_to_target count [(0, duration)] =
      if (count =? 1)%Z then Ok [(0, duration)]
      else Err (RuntimeError (DetectedOnly 1 count)).
Proof.
  intros Hrc Hlines Hpad Hdur. unfold MIN_SEGMENT_DURATION in Hdur. split.
  - unfold detect_segments. rewrite Hrc. cbn [Z.eqb].
    unfold parse_silence_log. rewrite parse_lines_spec.
    destruct (no_match_lines _ Hlines) as (-> & -> & ->).
    cbn [app]. cbv zeta.
    change (pair_silences [] [] duration) with (@nil interval).
    unfold silences_to_speech. cbn [fold_left].
    replace (Qgtb (duration - 0) EPSILON) with true
      by (symmetry; apply Qgtb_true; unfold EPSILON; lra).
    cbn [app]. unfold apply_padding. cbn [fold_left padding_step].
    unfold py_max, py_min.
    replace (Qgtb (0 - pad) 0) with false by (symmetry; apply Qgtb_false; lra).
    replace (Qgtb duration (duration + pad)) with false
      by (symmetry; apply Qgtb_false; lra).
    replace (Qgeb (duration - 0) MIN_SEGMENT_DURATION) with true
      by (symmetry; apply Qle_bool_iff; unfold MIN_SEGMENT_DURATION; lra).
    reflexivity.
  - intros count Hcount. unfold fit_segments_to_target. cbv zeta.
    change (len (py_sorted fst [(0, duration)])) with 1%Z.
    rewrite (Z.eqb_sym 1 count).
    destruct (Z.eqb_spec count 1) as [_|Hne]; [reflexivity|].
    destruct (Z.ltb_spec 1 count) as [_|]; [reflexivity | lia].
Qed.

Lemma detect_silence_free_witness :
  let proc := {| returncode := 0; stdout := "";
                 stderr := ("size=N/A time=00:00:03.00" ++ String "010" "video:0kB")%string |} in
  detect_segments proc (7 # 100) 3 = Segments [(0, 3)] /\
  fit_segments_to_target 2 [(0, 3)] = Err (RuntimeError (DetectedOnly 1 2)).
Proof.
  intros proc.
  destruct (detect_silence_free proc (7 # 100) 3) as [Hd Hfit].
  - reflexivity.
  - reflexivity.
  - vm_compute. intro; discriminate.
  - vm_compute. intro; discriminate.
  - split; [exact Hd|]. apply (Hfit 2%Z). lia.
Defined.

(** ** The even split goes through the fitter unchanged *)

Lemma round_half_even_mono (q1 q2 : Q) :
  q1 <= q2 -> (round_half_even q1 <= round_half_even q2)%Z.
Proof.
  intros Hq. unfold round_half_even.
  pose proof (Qfloor_resp_le q1 q2 Hq) as Hf.
  pose proof (Qfloor_le q1) as Hlo1. pose proof (Qfloor_le q2) as Hlo2.
  remember (Qfloor q1) as f1 eqn:E1. remember (Qfloor q2) as f2 eqn:E2.
  destruct (Z.eq_dec f1 f2) as [->|Hne].
  - destruct (Qgtb (1 # 2) (q1 - inject_Z f2)) eqn:A1;
      destruct (Qgtb (1 # 2) (q2 - inject_Z f2)) eqn:A2;
      destruct (Qgtb (q1 - inject_Z f2) (1 # 2)) eqn:B1;
      destruct (Qgtb (q2 - inject_Z f2) (1 # 2)) eqn:B2;
      order_cases; try lia; try (exfalso; lra);
      destruct (Z.even f2); lia.
  - destruct (Qgtb (1 # 2) (q1 - inject_Z f1));
      destruct (Qgtb (1 # 2) (q2 - inject_Z f2));
      destruct (Qgtb (q1 - inject_Z f1) (1 # 2));
      destruct (Qgtb (q2 - inject_Z f2) (1 # 2));
      destruct (Z.even f1); destruct (Z.even f2); lia.
Qed.

Lemma py_round_5_mono (x y : Q) : x <= y -> py_round x 5 <= py_round y 5.
Proof.
  intros H. unfold py_round, Qdiv.
  change (inject_Z (10 ^ Z.of_nat 5)) with (100000 # 1).
  apply Qmult_le_compat_r; [|vm_compute; intro; discriminate].
  rewrite <- Zle_Qle. apply round_half_even_mono. lra.
Qed.

Lemma even_segments_start_sorted (count : Z) (duration L : Q) (n : nat) :
  0 <= L -> forall a : nat,
  start_sorted (List.map (even_segment count duration L) (List.map Z.of_nat (seq a n))).
Proof.
  intros HL. induction n as [|n IH]; intros a; [exact I|].
  specialize (IH (S a)).
  destruct n as [|n]; [exact I|].
  cbn [seq List.map start_sorted] in *. split; [|exact IH].
  unfold even_segment. cbn [fst].
  apply py_round_5_mono, Qmult_le_compat_r; [|exact HL].
  rewrite <- Zle_Qle. lia.
Qed.

(** X16. With detection disabled the fitter has nothing to do: for a count
    of at least 1 and a duration that is not negative, the even split is
    already sorted by start and has exactly [count] segments, and the
    fitter returns it unchanged. *)
Theorem split_evenly_fits (count : Z) (duration : Q) :
  (1 <= count)%Z -> 0 <= duration ->
  exists segs,
    split_evenly count duration = Ok segs /\
    fit_segments_to_target count segs = Ok segs.
Proof.
  intros Hcount Hdur.
  rewrite split_evenly_map by lia.
  set (L := duration / inject_Z count).
  assert (HL : 0 <= L).
  { apply Qle_shift_div_l.
    - change (inject_Z 0 < inject_Z count). rewrite <- Zlt_Qlt. lia.
    - lra. }
  eexists. split; [reflexivity|].
  pose proof (even_segments_start_sorted count duration L (Z.to_nat count) HL 0%nat)
    as Hsorted.
  assert (Hlen : len (List.map (even_segment count duration L) (py_range count)) = count).
  { unfold len, py_range. rewrite !length_map, length_seq. lia. }
  fold (py_range count) in Hsorted.
  destruct (List.map (even_segment count duration L) (py_range count)) as [|s l];
    [unfold len in Hlen; cbn in Hlen; lia|].
  rewrite (fit_on_start_sorted count s l Hsorted), Hlen, Z.eqb_refl. reflexivity.
Qed.

Lemma split_evenly_fits_witness :
  exists segs,
    split_evenly 3 10 = Ok segs /\ fit_segments_to_target 3 segs = Ok segs.
Proof.
  apply (split_evenly_fits 3 10).
  - lia.
  - vm_compute. intro; discriminate.
Defined.

(** ** Exports *)

Example format_3f_examples :
  format_3f (1234567 # 1000000) = "1.235"%string /\
  format_3f 12 = "12.000"%string /\
  format_3f (- (4 # 10000)) = "-0.000"%string /\
  format_3f (7 # 100) = "0.070"%string.
Proof. repeat split. Qed.

Lemma skipn_nth_error {A} (l : list A) (i : nat) (x : A) :
  nth_error l i = Some x -> skipn i l = x :: skipn (S i) l.
Proof.
  revert i. induction l as [|a l IH]; intros [|i]; cbn; try discriminate.
  - now intros [= ->].
  - intros H. now rewrite (IH i H).
Qed.



Lemma export_loop_all_succeed (env : environment) (input_path clips_dir fmt : string)
    (names : list string) (segments : list interval) :
  (forall cmd w, snd (subprocess_run env cmd w) = 0%Z) ->
  forall (idx : nat) (exports : list export) (w : gmap string string),
    fst (export_loop env input_path clips_dir fmt names idx segments exports w)
    = if (length segments <=? length (skipn idx names))%nat
      then Ok (exports ++ named_exports clips_dir fmt (skipn idx names) segments)
      else Err IndexError.
Proof.
  intros Hrun. induction segments as [|seg rest IH]; intros idx exports w.
  - cbn [export_loop fst length Nat.leb].
    unfold named_exports. destruct (skipn idx names); cbn; now rewrite app_nil_r.
  - cbn [export_loop].
    destruct (nth_error names idx) as [clip_name|] eqn:En.
    + rewrite (skipn_nth_error names idx clip_name En).
      unfold _run. specialize (Hrun (export_command input_path clips_dir fmt clip_name seg) w).
      destruct (subprocess_run env _ w) as [w' rc]. cbn [snd] in Hrun. subst rc.
      cbn [Z.eqb]. rewrite IH. cbn [length Nat.leb].
      destruct (length rest <=? length (skipn (S idx) names))%nat; [|reflexivity].
      unfold named_exports. cbn [combine List.map fst snd].
      now rewrite <- app_assoc.
    + cbn [fst]. apply nth_error_None in En.
      destruct (Nat.leb_spec (length (seg :: rest)) (length (skipn idx names))) as [H|_];
        [|reflexivity].
      rewrite length_skipn in H. cbn [length] in H. lia.
Qed.

(** X18. When every command succeeds, [_export_segments] returns the named
    entries if there are at least as many names as segments, and raises
    [IndexError] otherwise (having already run the commands for the clips
    that do have a name). *)
Theorem export_segments_all_succeed (env : environment)
    (input_path output_dir fmt : string) (names : list string)
    (segments : list interval) (w : gmap string string) :
  (forall cmd w', snd (subprocess_run env cmd w') = 0%Z) ->
  fst (export_segments env input_path output_dir fmt names segments w)
  = if (length segments <=? length names)%nat
    then Ok (named_exports (path_join output_dir "clips") fmt names segments)
    else Err IndexError.
Proof.
  intros Hrun. unfold export_segments.
  exact (export_loop_all_succeed env input_path (path_join output_dir "clips") fmt
           names segments Hrun 0 [] w).
Qed.

Lemma export_segments_all_succeed_witness :
  let env := {| resolve := fun p => p; open_succeeds := true;
                subprocess_run := fun _ w => (w, 0%Z) |} in
  fst (export_segments env "/in/tones.wav" "/out" "mp3" ["ma1"; "ma2"]%string
         [(0, 1); (2, 3); (4, 5)] ∅)
  = Err IndexError.
Proof.
  intros env.
  apply (export_segments_all_succeed env "/in/tones.wav" "/out" "mp3"
           ["ma1"; "ma2"]%string [(0, 1); (2, 3); (4, 5)] ∅).
  reflexivity.
Defined.
